(** * nomad-pack: the [info] and [status] commands and variable resolution

    A shallow embedding of [internal/cli/info.go], of the status command
    ([StatusCommand], [validateStatusArgs]) and of the variable resolution
    engine the two commands sit on.  Go strings are [string], slices are
    [list], a Go [error] is a message and [nil] is [None]; a command
    returns its exit code together with what it handed to the UI. *)

From Stdlib Require Import Ascii String.
From stdpp Require Import base strings list gmap sorting pretty.

Set Warnings "-register-all".
Open Scope string_scope.
Open Scope list_scope.
Open Scope nat_scope.
Open Scope stdpp_scope.

(** Characters Go writes with an escape. *)
Definition tab : string := String "009"%char EmptyString.

(** A Go [error]: only its message is observable here. *)
Definition error := string.

(* ================================================================= *)
(** ** go-cty types and values, as far as the commands consult them *)

Module cty.

(** [cty.Type].  [NilType] is the zero [Type], "no type given";
    [DynamicPseudoType] is the type written [any]. *)
Inductive Typ : Type :=
| NilType
| String_
| Number
| Bool
| DynamicPseudoType
| List (elem : Typ)
| Map (elem : Typ)
| Object (attrs : list (string * Typ)).

(** [cty.Value].  A null value still carries a type; numbers are taken
    integral. *)
Inductive Value : Type :=
| NullVal (t : Typ)
| StringVal (s : string)
| NumberIntVal (n : Z)
| BoolVal (b : bool)
| ListVal (elem : Typ) (vs : list Value)
| MapVal (elem : Typ) (kvs : list (string * Value))
| ObjectVal (attrs : list (string * Value)).

(** The zero [Value]. *)
Definition NilVal : Value := NullVal NilType.

(** [Type.Equals]: structural equality of types. *)
Fixpoint Equals (a b : Typ) {struct a} : bool :=
  match a, b with
  | NilType, NilType => true
  | String_, String_ => true
  | Number, Number => true
  | Bool, Bool => true
  | DynamicPseudoType, DynamicPseudoType => true
  | List x, List y => Equals x y
  | Map x, Map y => Equals x y
  | Object fs, Object gs =>
      (fix attrs_eq (fs gs : list (string * Typ)) {struct fs} : bool :=
         match fs, gs with
         | [], [] => true
         | (k, t) :: fs', (k', t') :: gs' =>
             String.eqb k k' && Equals t t' && attrs_eq fs' gs'
         | _, _ => false
         end) fs gs
  | _, _ => false
  end.

(** [Value.IsNull]. *)
Definition IsNull (v : Value) : bool :=
  match v with NullVal _ => true | _ => false end.

(** [Value.Type]: the runtime type of a value. *)
Fixpoint TypeOf (v : Value) : Typ :=
  match v with
  | NullVal t => t
  | StringVal _ => String_
  | NumberIntVal _ => Number
  | BoolVal _ => Bool
  | ListVal t _ => List t
  | MapVal t _ => Map t
  | ObjectVal fs =>
      Object ((fix attrs_ty (fs : list (string * Value)) :=
                 match fs with
                 | [] => []
                 | (k, x) :: fs' => (k, TypeOf x) :: attrs_ty fs'
                 end) fs)
  end.

End cty.

(* ================================================================= *)
(** ** The variable a pack declares *)

(** [variables.Variable] (a keyword here, hence the longer name): the
    fields the commands read. *)
Record VariableSpec : Type := mkVariable {
  Name : string;
  Description : string;
  Type_ : cty.Typ;      (* the explicit "type" parameter, or NilType *)
  Default : cty.Value      (* the declared default, or a null value *)
}.

(* ================================================================= *)
(** ** What a command hands to the UI *)

(** [terminal.Table]. *)
Record Table : Type := mkTable {
  Headers : list string;
  Rows : list (list string)
}.

Definition NewTable (headers : list string) : Table :=
  {| Headers := headers; Rows := [] |}.

(** One cell of a glint layout: plain text, or text styled bold. *)
Inductive Cell : Type :=
| Text (s : string)
| BoldText (s : string).

(** The calls a command makes on its [terminal.UI] and on the glint
    document, in the order it makes them. *)
Inductive UICall : Type :=
| ErrorWithContext (err : error) (sub : string) (ctx : list string)
| Info (msg : string)
| Warning (msg : string)
| WarningBold (msg : string)
| ShowTable (tbl : Table)
| RenderFrame (rows : list (list Cell)).

(** A command's result: the exit code and the UI calls made. *)
Definition Outcome : Type := (Z * list UICall)%type.

(* ================================================================= *)
(** ** The status command *)

Module StatusCommand.

(** [cache.PackConfig], the fields the command sets. *)
Record PackConfig : Type := mkPackConfig {
  PackName : string;
  Registry : string;
  Ref : string
}.

(** [baseCommand], the fields the command reads after [Init]. *)
Record baseCommand : Type := mkBaseCommand {
  args : list string;
  deploymentName : string
}.

Record JobStatusInfo : Type := mkJobStatusInfo {
  packName : string;
  registryName : string;
  jobDeploymentName : string;
  jobID : string;
  status : string
}.

Record JobStatusError : Type := mkJobStatusError {
  errJobID : string;
  jobError : error
}.

(** Custom validation function. *)
Definition validateStatusArgs (b : baseCommand) (args : list string)
  : option error :=
  if decide (1 < length args) then
    Some ("this command accepts at most 1 arg, received "
            +:+ pretty (length args))
  else if decide (deploymentName b ≠ EmptyString ∧ length args = 0) then
    Some "--name can only be used if pack name is provided"
  else None.

Definition formatDeployedPackJobs (packJobs : list JobStatusInfo) : Table :=
  let tbl := NewTable ["Pack Name"; "Registry Name"; "Deployment Name";
                       "Job Name"; "Status"] in
  fold_left
    (fun tbl jobInfo =>
       {| Headers := Headers tbl;
          Rows := Rows tbl ++
            [[packName jobInfo; registryName jobInfo;
              jobDeploymentName jobInfo; jobID jobInfo; status jobInfo]] |})
    packJobs tbl.

Section Collaborators.

(** What the command calls and this file does not define: Go's [%q]
    verb, [color.RedString], the usage text, the title passed with an
    argument error, and the UI error context made for a pack name
    ([NewUIErrorContext] followed by [Add]). *)
Variable quote : string → string.
Variable RedString : string → string.
Variable helpUsageMessage : string.
Variable ErrParsingArgsOrFlags : string.
Variable errorContextFor : string → list string.

Definition formatDeployedPackErrs (packErrs : list JobStatusError) : Table :=
  let tbl := NewTable ["Job Name"; "Error"] in
  fold_left
    (fun tbl jobInfo =>
       {| Headers := Headers tbl;
          Rows := Rows tbl ++
            [[errJobID jobInfo; RedString (jobError jobInfo)]] |})
    packErrs tbl.

(** [renderDeployedPackJobs], given what [getDeployedPackJobs]
    returned. *)
Definition renderDeployedPackJobs
    (packConfig : PackConfig) (c : baseCommand)
    (query : list JobStatusInfo * list JobStatusError * option error)
    (errorContext : list string) : Outcome :=
  let '(packJobs, jobErrs, err) := query in
  match err with
  | Some e => (1%Z, [ErrorWithContext e "error retrieving jobs" errorContext])
  | None =>
      if decide (length packJobs = 0) then
        let msg := "no jobs found for pack " +:+ quote (PackName packConfig) in
        let msg :=
          if decide (deploymentName c ≠ EmptyString)
          then msg +:+ " in deployment " +:+ quote (deploymentName c)
          else msg in
        (0%Z, [Warning msg])
      else
        (0%Z,
         [ShowTable (formatDeployedPackJobs packJobs)] ++
         (if decide (0 < length jobErrs) then
            [WarningBold "error retrieving job status for the following jobs:";
             ShowTable (formatDeployedPackErrs jobErrs)]
          else []))
  end.

(** [formatDeployedPacks]; the map of packs to their registries comes
    as the list of its entries in the order the [range] statements
    visit them. *)
Definition formatDeployedPacks
    (packRegistryMap : list (string * list string)) : Table :=
  let tbl := NewTable ["Pack Name"; "Registry Name"] in
  fold_left
    (fun tbl entry =>
       fold_left
         (fun tbl registryName =>
            {| Headers := Headers tbl;
               Rows := Rows tbl ++ [[entry.1; registryName]] |})
         entry.2 tbl)
    packRegistryMap tbl.

(** [renderAllDeployedPacks], given what [getDeployedPacks] returned. *)
Definition renderAllDeployedPacks
    (packs : list (string * list string) * option error)
    (errorContext : list string) : Outcome :=
  let '(packRegistryMap, err) := packs in
  match err with
  | Some e => (1%Z, [ErrorWithContext e "error retrieving packs" errorContext])
  | None =>
      if decide (length packRegistryMap = 0)
      then (0%Z, [Warning "no packs found"])
      else (0%Z, [ShowTable (formatDeployedPacks packRegistryMap)])
  end.

(** One invocation: what each collaborator answers. *)
Record Invocation : Type := mkInvocation {
  initResult : baseCommand + error;   (* c after Init, or its error *)
  clientResult : option error;        (* getAPIClient *)
  jobsResult : list JobStatusInfo * list JobStatusError * option error;
                                      (* getDeployedPackJobs *)
  packsResult : list (string * list string) * option error
                                      (* getDeployedPacks *)
}.

(** [StatusCommand.Run]. *)
Definition Run (flags : PackConfig) (inv : Invocation) : Outcome :=
  match initResult inv with
  | inr err =>
      (1%Z, [ErrorWithContext err ErrParsingArgsOrFlags [];
             Info helpUsageMessage])
  | inl c =>
      let packConfig :=
        match args c with
        | a :: _ => {| PackName := a; Registry := Registry flags;
                       Ref := Ref flags |}
        | [] => flags
        end in
      let errorContext := errorContextFor (PackName packConfig) in
      match clientResult inv with
      | Some err =>
          (1%Z, [ErrorWithContext err "failed to initialize client"
                   errorContext])
      | None =>
          if decide (PackName packConfig = EmptyString)
          then renderAllDeployedPacks (packsResult inv) errorContext
          else renderDeployedPackJobs packConfig c (jobsResult inv)
                 errorContext
      end
  end.

End Collaborators.

End StatusCommand.

(* ================================================================= *)
(** ** Diagnostics *)

Module Diagnostics.

(** Modelled from the spec: the pack alias of section 3, the chain of
    aliases leading to a pack from the root (the root itself is the
    empty chain).  Missing from the sources: the pack identifier type. *)
Definition PackAlias : Type := list string.

(** Modelled from the spec: the severities of section 3.  Missing from
    the sources: the diagnostics type that [Parse] returns. *)
Inductive Severity : Type := DiagError | DiagWarning.

(** Modelled from the spec: the taxonomy of section 7.  Missing from
    the sources: the diagnostics the loader and the parser build. *)
Inductive Kind : Type :=
| NotFound | CyclicDependency | FetchFailed
| TypeMismatch | UnknownVariable | MissingRequired | LoadParseError.

(** Modelled from the spec: the Diagnostic of section 3,
    [{severity, subject (pack alias, variable name), message}], with the
    section 7 taxonomy as its kind.  Missing from the sources: the
    diagnostics type that [Parse] returns. *)
Record Diagnostic : Type := mkDiagnostic {
  severity : Severity;
  kind : Kind;
  subject : option PackAlias * string;
  message : string
}.

(** Modelled from the spec: the accumulator of section 4.5, the
    diagnostics in the order they were added; the Go [nil] is the empty
    list.  Missing from the sources: the diagnostics type. *)
Definition t : Type := list Diagnostic.

(** Modelled from the spec: section 4.5, what counts for [HasErrors].
    Missing from the sources: the methods of the diagnostics type. *)
Definition isError (d : Diagnostic) : bool :=
  match severity d with DiagError => true | DiagWarning => false end.

(** Modelled from the spec: the accumulator of section 4.5, [Add] and
    [HasErrors]; whether it holds an error is all that decides the
    success of a command.  Missing from the sources: the methods of the
    diagnostics type. *)
Definition Add (ds : t) (d : Diagnostic) : t := ds ++ [d].

(** Modelled from the spec: [HasErrors] of section 4.5, an error
    among the diagnostics held.  Missing from the sources: the methods
    of the diagnostics type. *)
Definition HasErrors (ds : t) : bool := existsb isError ds.

(** The Go test [diags != nil]. *)
Definition notNil (ds : t) : bool :=
  match ds with [] => false | _ :: _ => true end.

End Diagnostics.

(* ================================================================= *)
(** ** Packs *)

(** [p.Metadata], the fields [info] prints. *)
Record Metadata : Type := mkMetadata {
  MetaPackName : string;          (* Metadata.Pack.Name *)
  MetaPackDescription : string;   (* Metadata.Pack.Description *)
  MetaAppURL : string             (* Metadata.App.URL *)
}.

(** Modelled from the spec: the Pack of section 3,
    [{metadata, variableSpecs, templateFiles, children}], children keyed
    by alias.  Missing from the sources: the pack type that
    [loader.Load] returns. *)
Inductive Pack : Type := mkPack {
  PackMetadata : Metadata;
  variableSpecs : list VariableSpec;
  templateFiles : list string;
  children : list (string * Pack)
}.

(* ================================================================= *)
(** ** The info command *)

Module InfoCommand.

(** [config.ParserConfig] as [Run] fills it in. *)
Record ParserConfig (VarFiles : Type) : Type := mkParserConfig {
  ParentPack : Pack;
  RootVariableFiles : VarFiles;
  IgnoreMissingVars : bool
}.
Arguments mkParserConfig {VarFiles}.
Arguments ParentPack {VarFiles}.
Arguments RootVariableFiles {VarFiles}.
Arguments IgnoreMissingVars {VarFiles}.

Section Collaborators.

(** What the command calls and this file does not define: Go's [%q]
    verb, go-cty's [FriendlyName], the usage text, the title passed
    with an argument error, [Diagnostics.Error], the pack's
    [RootVariableFiles], and the variable parser: [NewParser],
    [Parse], and [GetVars] listing the parsed map in the order the
    [range] statement visits it. *)
Variable quote : string → string.
Variable FriendlyName : cty.Typ → string.
Variable helpUsageMessage : string.
Variable ErrParsingArgsOrFlags : string.
Variable diagsError : Diagnostics.t → string.
Variables VarFiles Parser ParsedVariables : Type.
Variable packRootVariableFiles : Pack → VarFiles.
Variable NewParser : ParserConfig VarFiles → Parser + error.
Variable Parse : Parser → ParsedVariables * Diagnostics.t.
Variable GetVars : ParsedVariables → list (string * list VariableSpec).

(** The type shown for a variable (the [varType] local of [Run]). *)
Definition varType (v : VariableSpec) : string :=
  if negb (cty.Equals (Type_ v) cty.NilType) then
    (* check the explicit "type" parameter *)
    FriendlyName (Type_ v)
  else if negb (cty.IsNull (Default v)) then
    (* or infer from the default *)
    FriendlyName (cty.TypeOf (Default v))
  else "unknown".

(** [fmt.Sprintf("\t- %q (%s: <class>) - %s", v.Name, varType,
    v.Description)]. *)
Definition variableRow (class : string) (v : VariableSpec) : string :=
  tab +:+ "- " +:+ quote (Name v) +:+ " (" +:+ varType v +:+ ": "
      +:+ class +:+ ") - " +:+ Description v.

(** The body of the loop over a pack's variables, on the two slices
    [required] and [optional]. *)
Definition addVariable (acc : list string * list string)
    (v : VariableSpec) : list string * list string :=
  let '(required, optional) := acc in
  if cty.IsNull (Default v)
  then (required ++ [variableRow "required" v], optional)
  else (required, optional ++ [variableRow "optional" v]).

(** The rows printed for one pack: [append(required, optional...)]. *)
Definition variableRows (variables : list VariableSpec) : list string :=
  let '(required, optional) := fold_left addVariable variables ([], []) in
  required ++ optional.

(** What one turn of the loop over [parsedVars.GetVars()] appends. *)
Definition packRows (entry : string * list VariableSpec)
  : list (list Cell) :=
  let '(pName, variables) := entry in
  [BoldText ("Pack " +:+ quote pName +:+ " Variables:")]
    :: map (fun row => [Text row]) (variableRows variables).

Definition headerRows (p : Pack) : list (list Cell) :=
  [ [BoldText "Pack Name          "; Text (MetaPackName (PackMetadata p))];
    [BoldText "Description        ";
     Text (MetaPackDescription (PackMetadata p))];
    [BoldText "Application URL    "; Text (MetaAppURL (PackMetadata p))] ].

(** One invocation: what each collaborator called before the parser
    answers.  [VerifyPackExists] reports its own failure. *)
Record Invocation : Type := mkInvocation {
  initResult : option error;        (* Init(WithExactArgs(1, args), ...) *)
  errorContext : list string;       (* initPackCommand(...).GetAll() *)
  verifyResult : option error;      (* cache.VerifyPackExists *)
  loadResult : Pack + error         (* loader.Load(packPath) *)
}.

(** [Run] from the call of [Parse] on. *)
Definition report (p : Pack)
    (parsed : ParsedVariables * Diagnostics.t) : Outcome :=
  let '(parsedVars, diags) := parsed in
  if Diagnostics.notNil diags && Diagnostics.HasErrors diags then
    (1%Z, [Info (diagsError diags)])
  else
    (0%Z, [RenderFrame (headerRows p ++ flat_map packRows (GetVars parsedVars))]).

(** [InfoCommand.Run]. *)
Definition Run (ignoreMissingVars : bool) (inv : Invocation) : Outcome :=
  match initResult inv with
  | Some err =>
      (1%Z, [ErrorWithContext err ErrParsingArgsOrFlags [];
             Info helpUsageMessage])
  | None =>
      match verifyResult inv with
      | Some _ => (1%Z, [])
      | None =>
          match loadResult inv with
          | inr err =>
              (1%Z, [ErrorWithContext err
                       "failed to load pack from local directory"
                       (errorContext inv)])
          | inl p =>
              match NewParser {| ParentPack := p;
                                 RootVariableFiles := packRootVariableFiles p;
                                 IgnoreMissingVars := ignoreMissingVars |} with
              | inr _ => (1%Z, [])
              | inl variableParser => report p (Parse variableParser)
              end
          end
      end
  end.

End Collaborators.

End InfoCommand.

(* ================================================================= *)
(** ** The variable resolution engine *)

Module Resolver.

Import Diagnostics.

(** Modelled from the spec: the type system of section 2 and the
    structural compatibility of section 4.4 step 3.  [any] admits every
    type; otherwise the two types agree constructor by constructor,
    objects attribute by attribute.  Missing from the sources: the
    variable parser behind [parser.NewParser] and [Parse], and so all
    of this module. *)
Fixpoint conforms (want got : cty.Typ) {struct want} : bool :=
  match want, got with
  | cty.DynamicPseudoType, _ => true
  | cty.NilType, cty.NilType => true
  | cty.String_, cty.String_ => true
  | cty.Number, cty.Number => true
  | cty.Bool, cty.Bool => true
  | cty.List x, cty.List y => conforms x y
  | cty.Map x, cty.Map y => conforms x y
  | cty.Object fs, cty.Object gs =>
      (fix attrs_ok (fs gs : list (string * cty.Typ)) {struct fs} : bool :=
         match fs, gs with
         | [], [] => true
         | (k, t) :: fs', (k', t') :: gs' =>
             String.eqb k k' && conforms t t' && attrs_ok fs' gs'
         | _, _ => false
         end) fs gs
  | _, _ => false
  end.

(** Modelled from the spec: the VariableSource kinds of section 3, in
    the precedence order of section 4.4 step 2, lowest first.  Missing
    from the sources: the parser's override inputs. *)
Inductive SourceKind : Type :=
| PackDefault | SharedFile | PackFile | Environment | CommandLine.

(** Modelled from the spec: the precedence rank each source carries
    (section 3), by the order of section 4.4 step 2.  Missing from the
    sources: the parser's ordering of its inputs. *)
Definition rank (k : SourceKind) : nat :=
  match k with
  | PackDefault => 0
  | SharedFile => 1
  | PackFile => 2
  | Environment => 3
  | CommandLine => 4
  end.

(** Modelled from the spec: the kinds from lowest to highest
    precedence.  Missing from the sources: as for [rank]. *)
Definition kinds : list SourceKind :=
  [PackDefault; SharedFile; PackFile; Environment; CommandLine].

#[global] Instance SourceKind_eq_dec : EqDecision SourceKind.
Proof. solve_decision. Defined.

(** Modelled from the spec: a VariableSource, one assignment with its
    origin and its target path: a pack (alias chain) and a variable
    name, or a bare variable name.  Missing from the sources: the
    parser's override inputs. *)
Record VariableSource : Type := mkSource {
  origin : SourceKind;
  target : option PackAlias * string;
  value : cty.Value
}.

(** Modelled from the spec: a VariableSpec with its owningPackAlias
    (section 3).  Missing from the sources: the parser's bookkeeping of
    which pack declares a variable. *)
Definition OwnedSpec : Type := (PackAlias * VariableSpec)%type.

(** Modelled from the spec: every VariableSpec reachable in the tree
    (section 4.4), the pack's own first, then each child's under its
    alias.  Missing from the sources: the parser's walk of the tree. *)
Fixpoint specsOf (alias : PackAlias) (p : Pack) : list OwnedSpec :=
  map (pair alias) (variableSpecs p) ++
  (fix below (cs : list (string * Pack)) : list OwnedSpec :=
     match cs with
     | [] => []
     | (a, c) :: cs' => specsOf (alias ++ [a]) c ++ below cs'
     end) (children p).

(** Modelled from the spec: section 4.4 step 2, the sources that name
    the variable with its pack.  Missing from the sources: the parser's
    matching of overrides to variables. *)
Definition qualifiedFor (alias : PackAlias) (name : string)
    (sources : list VariableSource) : list VariableSource :=
  filter (fun s => target s = (Some alias, name)) sources.

(** Modelled from the spec: section 4.4 step 2, the sources that name
    the variable alone.  Missing from the sources: as for
    [qualifiedFor]. *)
Definition bareFor (name : string)
    (sources : list VariableSource) : list VariableSource :=
  filter (fun s => target s = (None, name)) sources.

(** Modelled from the spec: section 4.4 step 2, which sources reach a
    spec.  The pack-qualified ones when there is any; the bare-named
    ones otherwise.  Missing from the sources: as for [qualifiedFor]. *)
Definition matching (alias : PackAlias) (name : string)
    (sources : list VariableSource) : list VariableSource :=
  match qualifiedFor alias name sources with
  | [] => bareFor name sources
  | q => q
  end.

(** Modelled from the spec: increasing precedence (section 4.4 step
    2).  The sources kind by kind, lowest kind first, each kind in the
    order supplied.  Missing from the sources: the parser's ordering of
    its inputs. *)
Definition byPrecedence (sources : list VariableSource)
  : list VariableSource :=
  k ← kinds; filter (fun s => origin s = k) sources.

(** Modelled from the spec: the value of one variable while its
    sources are applied, with the type overrides are held to and the
    diagnostics raised (section 4.4 steps 1 to 3).  Missing from the
    sources: the parser's per-variable state. *)
Record Slot : Type := mkSlot {
  current : option cty.Value;     (* None is "unset" *)
  expected : option cty.Typ;      (* None until a type is known *)
  raised : Diagnostics.t
}.

(** Modelled from the spec: section 4.4 step 3, the type overrides are
    held to.  The declared one; failing that, the default's.  Missing
    from the sources: the parser's type check. *)
Definition inferredType (v : VariableSpec) : option cty.Typ :=
  if negb (cty.Equals (Type_ v) cty.NilType) then Some (Type_ v)
  else if negb (cty.IsNull (Default v)) then Some (cty.TypeOf (Default v))
  else None.

(** Modelled from the spec: section 4.4 step 1, the default or
    "unset".  Missing from the sources: the parser's handling of
    defaults. *)
Definition start (v : VariableSpec) : Slot :=
  {| current := if cty.IsNull (Default v) then None else Some (Default v);
     expected := inferredType v;
     raised := [] |}.

(** Modelled from the spec: the [TypeMismatch] of section 4.4 step 3.
    A warning: section 7 has it recovered in place, lists it with
    [UnknownVariable] and not with the fatal conditions, and by section
    4.5 only errors fail a command.  Missing from the sources: the
    parser's type check. *)
Definition typeMismatch (alias : PackAlias) (v : VariableSpec) : Diagnostic :=
  {| severity := DiagWarning; kind := TypeMismatch;
     subject := (Some alias, Name v); message := "TypeMismatch" |}.

(** Modelled from the spec: section 4.4 steps 2 and 3, one source
    applied.  A value of a compatible type overwrites; one of an
    incompatible type is dropped with a [TypeMismatch], which section 7
    counts among the problems recovered in place and not among the
    fatal ones; with no type known yet the first value sets it.  A
    source carrying no value (null) leaves the slot as it is.  Missing
    from the sources: the parser's application of an override. *)
Definition assign (alias : PackAlias) (v : VariableSpec)
    (st : Slot) (s : VariableSource) : Slot :=
  if cty.IsNull (value s) then st
  else
    match expected st with
    | None =>
        {| current := Some (value s);
           expected := Some (cty.TypeOf (value s));
           raised := raised st |}
    | Some t =>
        if conforms t (cty.TypeOf (value s)) then
          {| current := Some (value s); expected := Some t;
             raised := raised st |}
        else
          {| current := current st; expected := Some t;
             raised := Add (raised st) (typeMismatch alias v) |}
    end.

(** Modelled from the spec: the [MissingRequired] of section 4.4 step
    4, an error, or a warning under [ignoreMissing].  Missing from the
    sources: the parser's check of required variables. *)
Definition missingRequired (ignoreMissing : bool)
    (alias : PackAlias) (v : VariableSpec) : Diagnostic :=
  {| severity := if ignoreMissing then DiagWarning else DiagError;
     kind := MissingRequired;
     subject := (Some alias, Name v); message := "MissingRequired" |}.

(** Modelled from the spec: section 4.4 step 4, the value left and,
    for a required spec left unset, the diagnostic.  Missing from the
    sources: the parser's check of required variables. *)
Definition conclude (ignoreMissing : bool) (alias : PackAlias)
    (v : VariableSpec) (st : Slot) : option cty.Value * Diagnostics.t :=
  match current st with
  | Some x => (Some x, raised st)
  | None =>
      if cty.IsNull (Default v)
      then (None, Add (raised st) (missingRequired ignoreMissing alias v))
      else (None, raised st)
  end.

(** Modelled from the spec: the sources applied to a spec, in the
    order they are applied (section 4.4 step 2).  Missing from the
    sources: the parser's ordering of its inputs. *)
Definition applied (sp : OwnedSpec) (sources : list VariableSource)
  : list VariableSource :=
  byPrecedence (matching sp.1 (Name sp.2) sources).

(** Modelled from the spec: section 4.4 steps 1 to 4 for one spec.
    Missing from the sources: the parser's resolution of a variable. *)
Definition resolveSpec (ignoreMissing : bool)
    (sources : list VariableSource) (sp : OwnedSpec)
  : option cty.Value * Diagnostics.t :=
  conclude ignoreMissing sp.1 sp.2
    (fold_left (assign sp.1 sp.2) (applied sp sources) (start sp.2)).

(** Modelled from the spec: the ResolvedVariableSet of section 3,
    pack alias to variable name to value.  Missing from the sources:
    the type of the parsed variables. *)
Abbreviation ResolvedVariableSet := (gmap PackAlias (gmap string cty.Value)).

(** Modelled from the spec: reading the ResolvedVariableSet, by pack
    alias then variable name (section 6).  Missing from the sources:
    the type of the parsed variables. *)
Definition lookupVar (alias : PackAlias) (name : string)
    (rs : ResolvedVariableSet) : option cty.Value :=
  rs !! alias ≫= fun vars => vars !! name.

(** Modelled from the spec: entering a final value into the
    ResolvedVariableSet.  Missing from the sources: as for
    [lookupVar]. *)
Definition setVar (alias : PackAlias) (name : string) (x : cty.Value)
    (rs : ResolvedVariableSet) : ResolvedVariableSet :=
  <[alias := <[name := x]> (default ∅ (rs !! alias))]> rs.

(** Modelled from the spec: the output of section 4.4 so far, the
    values set and the diagnostics raised.  Missing from the sources:
    what [Parse] returns. *)
Definition State : Type := (ResolvedVariableSet * Diagnostics.t)%type.

(** Modelled from the spec: a spec's outcome taken into the output; an
    unset variable stays absent (section 4.4 step 4) and diagnostics
    accumulate (section 3).  Missing from the sources: the parser's
    loop over the variables. *)
Definition record (outcome : option cty.Value * Diagnostics.t)
    (sp : OwnedSpec) (st : State) : State :=
  (match outcome.1 with
   | Some x => setVar sp.1 (Name sp.2) x st.1
   | None => st.1
   end,
   st.2 ++ outcome.2).

(** Modelled from the spec: one spec visited (section 4.4).  Missing
    from the sources: the parser's loop over the variables. *)
Definition visit (ignoreMissing : bool) (sources : list VariableSource)
    (st : State) (sp : OwnedSpec) : State :=
  record (resolveSpec ignoreMissing sources sp) sp st.

(** Modelled from the spec: section 4.4 step 5, when a source names
    the variable of a spec.  Missing from the sources: the parser's
    matching of overrides to variables. *)
Definition names (s : VariableSource) (sp : OwnedSpec) : Prop :=
  target s = (Some sp.1, Name sp.2) ∨ target s = (None, Name sp.2).

#[global] Instance names_dec s sp : Decision (names s sp).
Proof. unfold names. apply _. Defined.

(** Modelled from the spec: the [UnknownVariable] warning of section
    4.4 step 5.  Missing from the sources: the parser's report of
    overrides it cannot place. *)
Definition unknownVariable (s : VariableSource) : Diagnostic :=
  {| severity := DiagWarning; kind := UnknownVariable;
     subject := target s; message := "UnknownVariable" |}.

(** Modelled from the spec: section 4.4 step 5, the sources that name
    no variable of the tree, in the order supplied.  Missing from the
    sources: as for [unknownVariable]. *)
Definition strays (specs : list OwnedSpec)
    (sources : list VariableSource) : list VariableSource :=
  filter (fun s => ¬ Exists (names s) specs) sources.

(** Modelled from the spec: [Resolve] of sections 4.4 and 6, over the
    loaded tree, the ordered sources and the [ignoreMissing] flag.
    Missing from the sources: [Parse] of the variable parser. *)
Definition Resolve (tree : Pack) (sources : list VariableSource)
    (ignoreMissing : bool) : State :=
  let st := fold_left (visit ignoreMissing sources) (specsOf [] tree) (∅, []) in
  (st.1, fold_left Add (unknownVariable <$> strays (specsOf [] tree) sources) st.2).

(** Modelled from the spec: what section 4.4 step 2 asks of the order
    [sequence] in which the [sources] of a spec are applied.  No source
    of a higher kind comes before one of a lower kind, and the sources
    of each kind are all there, in the order supplied (section 9
    settles ties so: the last one supplied wins).  Missing from the
    sources: the parser's ordering of its inputs. *)
Definition inPrecedenceOrder (sources sequence : list VariableSource) : Prop :=
  StronglySorted (fun a b => rank (origin a) ≤ rank (origin b)) sequence ∧
  ∀ k, filter (fun s => origin s = k) sequence
       = filter (fun s => origin s = k) sources.

(** Modelled from the spec: the key a spec has in the
    ResolvedVariableSet, pack alias and variable name (section 3).
    Missing from the sources: the type of the parsed variables. *)
Definition key (sp : OwnedSpec) : PackAlias * string := (sp.1, Name sp.2).

(** Modelled from the spec: a source whose value is there and passes
    the type reconciliation of section 4.4 step 3, the one case in
    which applying it overwrites.  Missing from the sources: the
    parser's type check. *)
Definition accepted (st : Slot) (s : VariableSource) : Prop :=
  cty.IsNull (value s) = false ∧
  ∀ t, expected st = Some t → conforms t (cty.TypeOf (value s)) = true.

End Resolver.

(* ================================================================= *)
(** ** A pack tree and sources to run the definitions on *)

Module Samples.

Import Diagnostics Resolver.

Definition greeting : VariableSpec :=
  {| Name := "message"; Description := "what to say";
     Type_ := cty.NilType; Default := cty.StringVal "a" |}.

Definition count : VariableSpec :=
  {| Name := "x"; Description := "how many";
     Type_ := cty.Number; Default := cty.NumberIntVal 0 |}.

Definition region : VariableSpec :=
  {| Name := "region"; Description := "where to run";
     Type_ := cty.String_; Default := cty.NilVal |}.

Definition childPack : Pack :=
  {| PackMetadata := mkMetadata "redis" "a cache" "https://redis.io";
     variableSpecs := [count; region];
     templateFiles := ["redis.nomad.tpl"];
     children := [] |}.

Definition otherPack : Pack :=
  {| PackMetadata := mkMetadata "proxy" "a proxy" "https://example.com";
     variableSpecs := [count];
     templateFiles := ["proxy.nomad.tpl"];
     children := [] |}.

Definition rootPack : Pack :=
  {| PackMetadata := mkMetadata "app" "an application" "https://example.com";
     variableSpecs := [greeting; count];
     templateFiles := ["app.nomad.tpl"];
     children := [("child", childPack); ("other", otherPack)] |}.

Definition sharedB : VariableSource :=
  {| origin := SharedFile; target := (Some [], "message");
     value := cty.StringVal "b" |}.

Definition cliC : VariableSource :=
  {| origin := CommandLine; target := (Some [], "message");
     value := cty.StringVal "c" |}.

Definition bareX : VariableSource :=
  {| origin := CommandLine; target := (None, "x");
     value := cty.NumberIntVal 1 |}.

Definition childX : VariableSource :=
  {| origin := SharedFile; target := (Some ["child"], "x");
     value := cty.NumberIntVal 2 |}.

(** An environment variable that names [region] and carries nothing. *)
Definition noRegion : VariableSource :=
  {| origin := Environment; target := (None, "region");
     value := cty.NilVal |}.

(** [%q] on a string with nothing to escape: the string between double
    quotes. *)
Definition plainQuote (s : string) : string :=
  String "034"%char (s +:+ String "034"%char EmptyString).

(** Names for the types of the sample variables, in the manner of
    [FriendlyName]. *)
Definition shortName (t : cty.Typ) : string :=
  match t with
  | cty.String_ => "string"
  | cty.Number => "number"
  | cty.Bool => "bool"
  | cty.DynamicPseudoType => "dynamic"
  | _ => "other"
  end.

(** A parser for [info] that runs the engine with no override and
    lists the root pack's variables. *)
Definition parseRoot (cfg : InfoCommand.ParserConfig unit)
  : list (string * list VariableSpec) * Diagnostics.t :=
  ([(MetaPackName (PackMetadata (InfoCommand.ParentPack cfg)),
     variableSpecs (InfoCommand.ParentPack cfg))],
   (Resolve (InfoCommand.ParentPack cfg) []
      (InfoCommand.IgnoreMissingVars cfg)).2).

End Samples.

(* ================================================================= *)
(** ** Go's [strings] functions the terminal code calls *)

Module gostrings.

(** The byte written ["\n"] in Go. *)
Definition newline : ascii := "010"%char.

(** [strings.HasPrefix]. *)
Definition HasPrefix (s prefix : string) : bool := String.prefix prefix s.

(** [strings.Index]: the byte offset of the first [substr] in [s], or
    -1. *)
Fixpoint Index (s substr : string) : Z :=
  if String.prefix substr s then 0%Z
  else
    match s with
    | EmptyString => (-1)%Z
    | String _ rest =>
        let i := Index rest substr in
        if (i <? 0)%Z then (-1)%Z else (i + 1)%Z
    end.

(** [s[n:]]. *)
Fixpoint from (n : nat) (s : string) : string :=
  match n, s with
  | O, _ => s
  | S n', String _ rest => from n' rest
  | S _, EmptyString => EmptyString
  end.

(** [strings.Cut]: the text before and after the first [sep]. *)
Definition Cut (s sep : string) : string * string * bool :=
  let i := Index s sep in
  if (0 <=? i)%Z
  then (String.substring 0 (Z.to_nat i) s,
        from (Z.to_nat i + String.length sep) s, true)
  else (s, EmptyString, false).

(** [strings.Split] on a one-byte separator. *)
Fixpoint Split (s : string) (sep : ascii) : list string :=
  match s with
  | EmptyString => [EmptyString]
  | String c rest =>
      if Ascii.eqb c sep then EmptyString :: Split rest sep
      else
        match Split rest sep with
        | line :: lines => String c line :: lines
        | [] => [String c EmptyString]
        end
  end.

(** Whether the byte [c] occurs in [s]. *)
Fixpoint contains (c : ascii) (s : string) : bool :=
  match s with
  | EmptyString => false
  | String c' rest => Ascii.eqb c' c || contains c rest
  end.

(** [strings.Join]. *)
Fixpoint Join (elems : list string) (sep : string) : string :=
  match elems with
  | [] => EmptyString
  | [a] => a
  | a :: rest => a +:+ sep +:+ Join rest sep
  end.

(** [count] copies of [s], for a [count] that is not negative. *)
Fixpoint copies (s : string) (count : nat) : string :=
  match count with
  | O => EmptyString
  | S n => s +:+ copies s n
  end.

(** [strings.Repeat]; it panics on a negative count ([None]). *)
Definition Repeat (s : string) (count : Z) : option string :=
  if (count <? 0)%Z then None else Some (copies s (Z.to_nat count)).

End gostrings.

(* ================================================================= *)
(** ** The non-interactive UI *)

Module Terminal.

(** The styles [Output] tells apart; [PlainStyle] stands for any other
    style, the empty one included. *)
Inductive Style : Type :=
| DebugStyle | HeaderStyle | ErrorStyle | ErrorBoldStyle
| WarningStyle | WarningBoldStyle | TraceStyle
| SuccessStyle | SuccessBoldStyle | InfoStyle | PlainStyle.

(** One call on the writer: [fmt.Fprintln] adds a newline, [fmt.Fprint]
    does not. *)
Inductive Write : Type :=
| Fprintln (s : string)
| Fprint (s : string).

(** The text handed to the writer. *)
Definition text (w : Write) : string :=
  match w with Fprintln s | Fprint s => s end.

(** The bytes a call puts on the writer. *)
Definition bytes (w : Write) : string :=
  match w with
  | Fprintln s => s +:+ String gostrings.newline EmptyString
  | Fprint s => s
  end.

(** A write in the manner of the error style: a whole line that opens
    with the error mark or with two spaces. *)
Definition marked (w : Write) : Prop :=
  ∃ rest, w = Fprintln ("! " +:+ rest) ∨ w = Fprintln ("  " +:+ rest).

(** A write that ends its line. *)
Definition wholeLine (w : Write) : Prop := ∃ s, w = Fprintln s.

(** [NamedValue.Value], by the cases of the type switch. *)
Inductive AnyValue (Float : Type) : Type :=
| IntValue (n : Z)
| FloatValue (x : Float)
| BoolValue (b : bool)
| StringValue (s : string)
| OtherValue (shown : string).     (* as [%s] prints it *)
Arguments IntValue {Float}.
Arguments FloatValue {Float}.
Arguments BoolValue {Float}.
Arguments StringValue {Float}.
Arguments OtherValue {Float}.

Record NamedValue (Float : Type) : Type := mkNamedValue {
  NVName : string;
  NVValue : AnyValue Float
}.
Arguments mkNamedValue {Float}.
Arguments NVName {Float}.
Arguments NVValue {Float}.

Section Collaborators.

(** What the UI calls and this file does not define: the four colours
    (what [Sprintf] of each does to the formatted text), [helper.Title],
    [wordwrap.WrapString], the two promoted context prefixes, the
    [%f] verb, the tab writer as set up in [NamedValues], and
    [Interpret]: [Output] and [AppendToRow] below take the message and
    the style it returns, and [interpret] is the message it builds when
    called with a style option alone, the style being the option's. *)
Variables colorDebug colorWarning colorTrace colorInfo : string → string.
Variable interpret : string → string.
Variable Title : string → string.
Variable WrapString : string → Z → string.
Variables UIContextErrorDetail UIContextErrorSuggestion : string.
Variable Float : Type.
Variable formatFloat : Float → string.
Variable tabwriter : string → string.

(** The message in the error style, shared by [Output] and
    [AppendToRow]. *)
Definition errorLines (msg : string) : list Write :=
  match gostrings.Split msg gostrings.newline with
  | [] => []
  | first :: rest =>
      Fprintln ("! " +:+ first) :: map (fun line => Fprintln ("  " +:+ line)) rest
  end.

(** The message in the info style. *)
Definition infoText (msg : string) : string :=
  gostrings.Join
    (map (fun line => colorInfo ("  " +:+ line))
       (gostrings.Split msg gostrings.newline))
    (String gostrings.newline EmptyString).

(** The two bytes of the header mark, then a space. *)
Definition headerMark : string :=
  String gostrings.newline
    (String "194"%char (String "187"%char (String " "%char EmptyString))).

(** [Output] implements UI. *)
Definition Output (style : Style) (msg : string) : list Write :=
  match style with
  | DebugStyle =>
      [Fprintln (colorDebug ("debug: " +:+ msg
                               +:+ String gostrings.newline EmptyString))]
  | HeaderStyle => [Fprintln (headerMark +:+ msg)]
  | ErrorStyle | ErrorBoldStyle => errorLines msg
  | WarningStyle | WarningBoldStyle =>
      [Fprintln (colorWarning ("warning: " +:+ msg
                                 +:+ String gostrings.newline EmptyString))]
  | TraceStyle =>
      [Fprintln (colorTrace ("trace: " +:+ msg
                               +:+ String gostrings.newline EmptyString))]
  | SuccessStyle | SuccessBoldStyle => [Fprintln msg]
  | InfoStyle => [Fprintln (infoText msg)]
  | PlainStyle => [Fprintln msg]
  end.

(** [AppendToRow]. *)
Definition AppendToRow (style : Style) (msg : string) : list Write :=
  match style with
  | HeaderStyle => [Fprint (headerMark +:+ msg)]
  | ErrorStyle | ErrorBoldStyle => errorLines msg
  | WarningStyle | WarningBoldStyle => [Fprint ("warning: " +:+ msg)]
  | SuccessStyle | SuccessBoldStyle => [Fprint msg]
  | InfoStyle => [Fprint (infoText msg)]
  | DebugStyle | TraceStyle | PlainStyle => [Fprint msg]
  end.

(** [Debug], [Error], [Header], [Info], [Success], [Trace], [Warning]
    and [WarningBold] implement UI. *)
Definition Debug (msg : string) : list Write :=
  Output DebugStyle (interpret msg).

Definition Error (msg : string) : list Write :=
  Output ErrorStyle (interpret msg).

Definition Header (msg : string) : list Write :=
  Output HeaderStyle (interpret msg).

Definition Info (msg : string) : list Write :=
  Output InfoStyle (interpret msg).

Definition Success (msg : string) : list Write :=
  Output SuccessStyle (interpret msg).

Definition Trace (msg : string) : list Write :=
  Output TraceStyle (interpret msg).

Definition Warning (msg : string) : list Write :=
  Output WarningStyle (interpret msg).

Definition WarningBold (msg : string) : list Write :=
  Output WarningBoldStyle (interpret msg).

(** The line of one row, as handed to the tab writer; a row whose value
    is the empty string has none. *)
Definition namedValueLine (row : NamedValue Float) : option string :=
  let line shown :=
    "  " +:+ NVName row +:+ ": " +:+ tab +:+ shown
         +:+ String gostrings.newline EmptyString in
  match NVValue row with
  | IntValue n => Some (line (pretty n))
  | FloatValue x => Some (line (formatFloat x))
  | BoolValue b => Some (line (if b then "true" else "false"))
  | StringValue v =>
      if decide (v = EmptyString) then None else Some (line v)
  | OtherValue shown => Some (line shown)
  end.

(** What the loop of [NamedValues] writes into the tab writer. *)
Definition namedValueLines (rows : list (NamedValue Float)) : list string :=
  fold_left
    (fun written row =>
       match namedValueLine row with
       | Some line => written ++ [line]
       | None => written
       end)
    rows [].

(** [NamedValues] implements UI. *)
Definition NamedValues (rows : list (NamedValue Float)) : list Write :=
  [Fprintln (tabwriter (gostrings.Join (namedValueLines rows) EmptyString))].

(** The [extractItem] closure of [ErrorWithContext]: the first entry
    with the prefix [key] taken out of [ctx]. *)
Fixpoint extractItem (ctx : list string) (key : string)
  : list string * string * bool :=
  match ctx with
  | [] => ([], EmptyString, false)
  | v :: rest =>
      if gostrings.HasPrefix v key then (rest, v, true)
      else
        let '(outCtx, outStr, found) := extractItem rest key in
        if found then (v :: outCtx, outStr, true)
        else (ctx, EmptyString, false)
  end.

(** Go's [uint(n)] of an [int]. *)
Definition uint (n : Z) : Z := (n mod 2 ^ 64)%Z.

(** The [promote] closure of [ErrorWithContext], on the context it
    updates; it returns the context left and what it wrote. *)
Definition promote (ctx : list string) (key : string)
  : option (list string * list Write) :=
  let '(oc, item, found) := extractItem ctx key in
  if found then
    if decide (key = EmptyString) then Some (oc, [])
    else
      let '(key, rest, found) := gostrings.Cut item ": " in
      if negb found then
        let wrapped := WrapString key 78 in
        let lines := gostrings.Split wrapped gostrings.newline in
        Some (oc, lines ≫= fun l => Error ("  " +:+ l))
      else
        let wrapped :=
          WrapString rest (uint (78 - Z.of_nat (String.length key))) in
        let lines := gostrings.Split wrapped gostrings.newline in
        match lines with
        | [] => Some (oc, [])
        | l :: more =>
            later ← mapM
              (fun l =>
                 indent ← gostrings.Repeat " " (Z.of_nat (String.length key));
                 Some (Error ("  " +:+ indent +:+ "  " +:+ l)))
              more;
            Some (oc, Error ("  " +:+ key +:+ ": " +:+ l) ++ concat later)
        end
  else Some (ctx, []).

(** The widest distance from the start of an entry to just past its
    first colon (the [max] of [ErrorWithContext]). *)
Definition colonColumn (ctx : list string) : Z :=
  fold_left
    (fun max entry =>
       let loc := (gostrings.Index entry ":" + 1)%Z in
       if (max <? loc)%Z then loc else max)
    ctx 0%Z.

(** What the last loop of [ErrorWithContext] hands to [Error] for one
    entry. *)
Definition paddedEntry (max : Z) (entry : string) : option string :=
  let padding := (max - gostrings.Index entry ":" + 1)%Z in
  pad ← gostrings.Repeat " " padding;
  Some ("  " +:+ pad +:+ entry).

(** The last loop of [ErrorWithContext]. *)
Fixpoint contextLines (max : Z) (ctx : list string) : option (list Write) :=
  match ctx with
  | [] => Some []
  | entry :: rest =>
      line ← paddedEntry max entry;
      more ← contextLines max rest;
      Some (Error line ++ more)
  end.

(** [ErrorWithContext] satisfies the [ErrorWithContext] function on the
    UI interface; [None] is a panic. *)
Definition ErrorWithContext (err : error) (sub : string) (ctx : list string)
  : option (list Write) :=
  let head := Error (Title sub) ++ Error ("  Error: " +:+ err) in
  '(ctx, detail) ← promote ctx UIContextErrorDetail;
  '(ctx, suggestion) ← promote ctx UIContextErrorSuggestion;
  entries ← contextLines (colonColumn ctx) ctx;
  Some (head ++ detail ++ suggestion ++ Error "  Context:" ++ entries).

End Collaborators.

(** A step group with the steps it has handed out.  [counter] is the
    counter of the group's [sync.WaitGroup]; a step has [inGroup] when
    its [wg] is not nil.  The methods take the one mutex the group and
    its steps share, so their effects follow one another. *)
Record Step : Type := mkStep {
  inGroup : bool;
  done : bool
}.

Record StepGroup : Type := mkStepGroup {
  closed : bool;
  counter : Z;
  steps : list Step;
  written : list Write
}.

Definition newStepGroup : StepGroup :=
  {| closed := false; counter := 0; steps := []; written := [] |}.

(** What stops a call: a method called on a nil [*sync.WaitGroup], the
    wait group's counter made negative, or a step that was never handed
    out. *)
Inductive Fault : Type := NilWaitGroup | NegativeCounter | NoSuchStep.

(** The calls made on a group and on its steps; a step is named by its
    place among the steps handed out.  The text of [Add] and [Update]
    is the formatted one. *)
Inductive Call : Type :=
| CallAdd (text : string)
| CallUpdate (i : nat) (text : string)
| CallStatus (i : nat) (status : string)
| CallDone (i : nat)
| CallAbort (i : nat)
| CallWait.

(** [nonInteractiveStep.Update]. *)
Definition Update (text : string) : Write := Fprintln ("-> " +:+ text).

(** [nonInteractiveStepGroup.Add]: start a step in the output. *)
Definition Add (g : StepGroup) (text : string) : StepGroup :=
  {| closed := closed g;
     counter := if closed g then counter g else (counter g + 1)%Z;
     steps := steps g ++ [{| inGroup := negb (closed g); done := false |}];
     written := written g ++ [Update text] |}.

(** [nonInteractiveStep.Done] on step [i]. *)
Definition Done (g : StepGroup) (i : nat) : StepGroup + Fault :=
  match steps g !! i with
  | None => inr NoSuchStep
  | Some f =>
      if done f then inl g
      else if negb (inGroup f) then inr NilWaitGroup
      else if (counter g - 1 <? 0)%Z then inr NegativeCounter
      else
        inl {| closed := closed g;
               counter := (counter g - 1)%Z;
               steps := <[i := {| inGroup := inGroup f; done := true |}]> (steps g);
               written := written g |}
  end.

(** [nonInteractiveStep.Abort]. *)
Definition Abort (g : StepGroup) (i : nat) : StepGroup + Fault := Done g i.

(** [nonInteractiveStepGroup.Wait], up to where it blocks. *)
Definition Wait (g : StepGroup) : StepGroup :=
  {| closed := true; counter := counter g; steps := steps g;
     written := written g |}.

(** [wg.Wait()] returns. *)
Definition released (g : StepGroup) : Prop := counter g = 0%Z.

Definition call (g : StepGroup) (c : Call) : StepGroup + Fault :=
  match c with
  | CallAdd text => inl (Add g text)
  | CallUpdate i text =>
      match steps g !! i with
      | None => inr NoSuchStep
      | Some _ =>
          inl {| closed := closed g; counter := counter g; steps := steps g;
                 written := written g ++ [Update text] |}
      end
  | CallStatus i _ =>
      match steps g !! i with
      | None => inr NoSuchStep
      | Some _ => inl g
      end
  | CallDone i => Done g i
  | CallAbort i => Abort g i
  | CallWait => inl (Wait g)
  end.

(** A sequence of calls, until one stops it. *)
Fixpoint calls (g : StepGroup) (cs : list Call) : StepGroup + Fault :=
  match cs with
  | [] => inl g
  | c :: cs' =>
      match call g c with
      | inl g' => calls g' cs'
      | inr fault => inr fault
      end
  end.

(** The steps the wait group still waits for. *)
Definition pending (g : StepGroup) : list Step :=
  filter (fun f => inGroup f = true ∧ done f = false) (steps g).

(** The wait group counts the steps it waits for. *)
Definition counted (g : StepGroup) : Prop :=
  counter g = Z.of_nat (length (pending g)).

End Terminal.

(* ================================================================= *)
(** * Properties of the status command *)

Section StatusFacts.

Import StatusCommand.

Variable quote : string → string.
Variable RedString : string → string.
Variable helpUsageMessage : string.
Variable ErrParsingArgsOrFlags : string.
Variable errorContextFor : string → list string.

(** C9.  [validateStatusArgs] accepts an argument list exactly when it
    holds at most one positional argument and the [--name] flag does not
    come without a pack name; it returns an error exactly when more than
    one argument is given, or [--name] is set and no argument is. *)
Theorem validateStatusArgs_accepts (b : baseCommand) (args : list string) :
  (validateStatusArgs b args = None ↔
     length args ≤ 1 ∧ ¬ (deploymentName b ≠ EmptyString ∧ length args = 0))
  ∧ (is_Some (validateStatusArgs b args) ↔
     1 < length args ∨ (deploymentName b ≠ EmptyString ∧ length args = 0)).
Proof.
  unfold validateStatusArgs.
  destruct (decide (1 < length args)) as [Hmany | Hfew].
  - split; split.
    + discriminate.
    + intros [Hle _]. lia.
    + auto.
    + eauto.
  - destruct (decide (deploymentName b ≠ EmptyString ∧ length args = 0))
      as [Hname | Hname].
    + split; split.
      * discriminate.
      * intros [_ Hno]. contradiction.
      * auto.
      * eauto.
    + split; split.
      * intros _. split; [lia | assumption].
      * reflexivity.
      * intros [x Hx]. discriminate.
      * intros [Hmany | Hbad]; [lia | contradiction].
Qed.

(** The message shown when a pack has no deployed job. *)
Lemma renderDeployedPackJobs_none packConfig c jobErrs errorContext :
  renderDeployedPackJobs quote RedString packConfig c ([], jobErrs, None)
    errorContext
  = (0%Z,
     [Warning
        (if decide (deploymentName c ≠ EmptyString)
         then "no jobs found for pack " +:+ quote (PackName packConfig)
                +:+ " in deployment " +:+ quote (deploymentName c)
         else "no jobs found for pack " +:+ quote (PackName packConfig))]).
Proof. reflexivity. Qed.

(** C10.  An invocation that names a pack, gets its client, and whose
    job query succeeds with no job ends with exit code 0 after a single
    warning, which carries the deployment name when one was given. *)
Theorem status_no_jobs_warns (flags : PackConfig) (inv : Invocation)
    (c : baseCommand) (name : string) (rest : list string)
    (jobErrs : list JobStatusError) :
  initResult inv = inl c →
  args c = name :: rest →
  name ≠ EmptyString →
  clientResult inv = None →
  jobsResult inv = ([], jobErrs, None) →
  Run quote RedString helpUsageMessage ErrParsingArgsOrFlags
      errorContextFor flags inv
  = (0%Z,
     [Warning
        (if decide (deploymentName c ≠ EmptyString)
         then "no jobs found for pack " +:+ quote name
                +:+ " in deployment " +:+ quote (deploymentName c)
         else "no jobs found for pack " +:+ quote name)]).
Proof.
  intros Hinit Hargs Hname Hclient Hjobs.
  unfold Run. rewrite Hinit, Hargs, Hclient, Hjobs. simpl.
  destruct (decide (name = EmptyString)) as [Heq | _]; [contradiction |].
  reflexivity.
Qed.

End StatusFacts.

(** C10 at work: [status example --name=dev] with no job deployed. *)
Lemma status_no_jobs_warns_witness :
  StatusCommand.Run id id "usage" "args" (fun name => [name])
    (StatusCommand.mkPackConfig EmptyString EmptyString EmptyString)
    (StatusCommand.mkInvocation
       (inl (StatusCommand.mkBaseCommand ["example"] "dev")) None
       ([], [], None) ([], None))
  = (0%Z, [Warning "no jobs found for pack example in deployment dev"]).
Proof.
  apply (status_no_jobs_warns id id "usage" "args" (fun name => [name])
           (StatusCommand.mkPackConfig EmptyString EmptyString EmptyString)
           (StatusCommand.mkInvocation
              (inl (StatusCommand.mkBaseCommand ["example"] "dev")) None
              ([], [], None) ([], None))
           (StatusCommand.mkBaseCommand ["example"] "dev") "example" [] []);
    first [reflexivity | discriminate].
Defined.

(* ================================================================= *)
(** * Properties of the info command *)

Section InfoFacts.

Import InfoCommand.

Variable quote : string → string.
Variable FriendlyName : cty.Typ → string.

Lemma Equals_NilType (t : cty.Typ) :
  cty.Equals t cty.NilType = true ↔ t = cty.NilType.
Proof. destruct t; simpl; split; intros H; try discriminate; reflexivity. Qed.

(** C7.  The type shown for a variable is its declared type when there
    is one; failing that the runtime type of its default when the
    default is not null; and "unknown" when it has neither. *)
Theorem varType_declared_then_default (v : VariableSpec) :
  varType FriendlyName v =
    match Type_ v with
    | cty.NilType =>
        match Default v with
        | cty.NullVal _ => "unknown"
        | d => FriendlyName (cty.TypeOf d)
        end
    | declared => FriendlyName declared
    end.
Proof.
  unfold varType.
  destruct (Type_ v) eqn:Hty; simpl; try reflexivity.
  destruct (Default v); reflexivity.
Qed.

(** The loop, whatever the two slices hold when it starts. *)
Lemma fold_addVariable (variables : list VariableSpec)
    (required optional : list string) :
  fold_left (addVariable quote FriendlyName) variables (required, optional)
  = (required ++ (variableRow quote FriendlyName "required"
                    <$> filter (fun v => cty.IsNull (Default v) = true) variables),
     optional ++ (variableRow quote FriendlyName "optional"
                    <$> filter (fun v => cty.IsNull (Default v) ≠ true) variables)).
Proof.
  revert required optional.
  induction variables as [| v variables IH]; intros required optional.
  - simpl. by rewrite !app_nil_r.
  - simpl. rewrite !filter_cons.
    destruct (cty.IsNull (Default v)) eqn:Hnull.
    + rewrite IH. rewrite decide_True by done. rewrite decide_False by auto.
      by rewrite fmap_cons, <- app_assoc.
    + rewrite IH. rewrite decide_False by done. rewrite decide_True by done.
      by rewrite fmap_cons, <- app_assoc.
Qed.

Lemma variableRows_split (variables : list VariableSpec) :
  variableRows quote FriendlyName variables
  = (variableRow quote FriendlyName "required"
       <$> filter (fun v => cty.IsNull (Default v) = true) variables)
    ++ (variableRow quote FriendlyName "optional"
          <$> filter (fun v => cty.IsNull (Default v) ≠ true) variables).
Proof. unfold variableRows. by rewrite fold_addVariable. Qed.

(** C8.  What [info] prints for a pack is its title, then a row for
    every variable without a default, in the order iterated, and only
    then a row for every variable with one, in the order iterated. *)
Theorem packRows_required_first (pName : string)
    (variables : list VariableSpec) :
  packRows quote FriendlyName (pName, variables)
  = [BoldText ("Pack " +:+ quote pName +:+ " Variables:")]
    :: ((fun row => [Text row]) <$>
          (variableRow quote FriendlyName "required"
             <$> filter (fun v => cty.IsNull (Default v) = true) variables)
          ++ (variableRow quote FriendlyName "optional"
                <$> filter (fun v => cty.IsNull (Default v) ≠ true) variables)).
Proof. unfold packRows. by rewrite variableRows_split. Qed.

(** C6.  Every variable of a pack is reported once, in a row that reads
    [<tab>- <name quoted> (<type>: required) - <description>] when its
    default is null and [... (<type>: optional) - ...] when it is
    not. *)
Theorem variableRows_classify (variables : list VariableSpec) :
  variableRows quote FriendlyName variables
  ≡ₚ (fun v =>
        tab +:+ "- " +:+ quote (Name v) +:+ " (" +:+ varType FriendlyName v
            +:+ ": "
            +:+ (if cty.IsNull (Default v) then "required" else "optional")
            +:+ ") - " +:+ Description v)
       <$> variables.
Proof.
  rewrite variableRows_split.
  induction variables as [| v variables IH]; [done |].
  rewrite !filter_cons, fmap_cons. cbv beta.
  destruct (cty.IsNull (Default v)) eqn:Hnull.
  - rewrite decide_True by done. rewrite decide_False by auto.
    rewrite fmap_cons. rewrite <- app_comm_cons. by rewrite IH.
  - rewrite decide_False by done. rewrite decide_True by done.
    rewrite fmap_cons. rewrite <- Permutation_middle. by rewrite IH.
Qed.

End InfoFacts.

(* ================================================================= *)
(** * Properties of the diagnostics accumulator *)

Section DiagnosticsFacts.

Import Diagnostics.

Lemma elem_of_Add (ds : Diagnostics.t) (d d' : Diagnostic) :
  d' ∈ Add ds d ↔ d' ∈ ds ∨ d' = d.
Proof. unfold Add. rewrite elem_of_app, list_elem_of_singleton. tauto. Qed.

Lemma HasErrors_true (ds : Diagnostics.t) :
  HasErrors ds = true ↔ ∃ d, d ∈ ds ∧ severity d = DiagError.
Proof.
  unfold HasErrors. rewrite existsb_exists. split.
  - intros (d & Hin & Herr). exists d. split; [by apply list_elem_of_In |].
    unfold isError in Herr. by destruct (severity d).
  - intros (d & Hin & Herr). exists d. split; [by apply list_elem_of_In |].
    unfold isError. by rewrite Herr.
Qed.

Lemma HasErrors_false (ds : Diagnostics.t) :
  HasErrors ds = false ↔ Forall (fun d => severity d = DiagWarning) ds.
Proof.
  rewrite <- not_true_iff_false, HasErrors_true, Forall_forall. split.
  - intros Hno d Hin. destruct (severity d) eqn:Hsev; [| done].
    exfalso. apply Hno. eauto.
  - intros Hall (d & Hin & Herr). specialize (Hall d Hin). congruence.
Qed.

Lemma HasErrors_app (ds ds' : Diagnostics.t) :
  HasErrors (ds ++ ds') = HasErrors ds || HasErrors ds'.
Proof. unfold HasErrors. apply existsb_app. Qed.

Lemma fold_Add (ds new : Diagnostics.t) : fold_left Add new ds = ds ++ new.
Proof.
  revert ds. induction new as [| d new IH]; intros ds; simpl.
  - by rewrite app_nil_r.
  - rewrite IH. unfold Add. by rewrite <- app_assoc.
Qed.

End DiagnosticsFacts.

(* ================================================================= *)
(** * Properties of the resolution engine *)

Section PrecedenceFacts.

Import Diagnostics Resolver.

Implicit Types (s : VariableSource) (k : SourceKind).
Implicit Types (sources sequence : list VariableSource).

(** The sources of one kind, in the order supplied. *)
Local Abbreviation ofKind k := (filter (fun s => origin s = k)).
Local Abbreviation notAfter := (fun a b => rank (origin a) ≤ rank (origin b)).

Lemma rank_inj k k' : rank k = rank k' → k = k'.
Proof. destruct k, k'; simpl; intros H; congruence. Qed.

Lemma byPrecedence_unfold sources :
  byPrecedence sources
  = ofKind PackDefault sources ++ ofKind SharedFile sources
      ++ ofKind PackFile sources ++ ofKind Environment sources
      ++ ofKind CommandLine sources.
Proof. unfold byPrecedence, kinds. simpl. by rewrite app_nil_r. Qed.

Lemma ofKind_ofKind k k' sources :
  ofKind k (ofKind k' sources) = if decide (k = k') then ofKind k sources else [].
Proof.
  induction sources as [| s sources IH].
  - by destruct (decide (k = k')).
  - rewrite !filter_cons.
    destruct (decide (origin s = k')) as [Hk' | Hk'].
    + rewrite filter_cons, IH.
      destruct (decide (k = k')) as [-> | Hne].
      * by rewrite decide_True by done.
      * rewrite decide_False by congruence. done.
    + rewrite IH. destruct (decide (k = k')) as [-> | Hne]; [| done].
      by rewrite decide_False by done.
Qed.

(** Each kind of [byPrecedence] is that kind as supplied. *)
Lemma ofKind_byPrecedence k sources :
  ofKind k (byPrecedence sources) = ofKind k sources.
Proof.
  rewrite byPrecedence_unfold, !filter_app, !ofKind_ofKind.
  destruct k; simpl; by rewrite ?app_nil_r.
Qed.

Lemma byPrecedence_perm sources : byPrecedence sources ≡ₚ sources.
Proof.
  rewrite byPrecedence_unfold.
  induction sources as [| s sources IH]; [done |].
  rewrite !filter_cons.
  destruct (origin s) eqn:Hkind; simpl;
    rewrite <- ?Permutation_middle; by rewrite IH.
Qed.

Lemma ofKind_sorted k sources : StronglySorted notAfter (ofKind k sources).
Proof.
  induction sources as [| s sources IH]; [constructor |].
  rewrite filter_cons. destruct (decide (origin s = k)) as [Hk | Hk]; [| done].
  constructor; [done |].
  apply Forall_forall. intros s' Hs'.
  apply list_elem_of_filter in Hs' as [Hk' _]. by rewrite Hk, Hk'.
Qed.

Lemma byPrecedence_sorted sources :
  StronglySorted notAfter (byPrecedence sources).
Proof.
  rewrite byPrecedence_unfold.
  repeat (apply StronglySorted_app_2; [| apply ofKind_sorted |]);
    try apply ofKind_sorted;
    intros a b Ha Hb;
    apply list_elem_of_filter in Ha as [Ha _];
    rewrite ?elem_of_app, !list_elem_of_filter in Hb;
    rewrite Ha; simpl;
    repeat (destruct Hb as [[Hb _] | Hb]; [rewrite Hb; simpl; lia |]);
    destruct Hb as [Hb _]; rewrite Hb; simpl; lia.
Qed.

Lemma ofKind_below k s sequence :
  Forall (notAfter s) sequence → rank k < rank (origin s) →
  ofKind k sequence = [].
Proof.
  intros Hall Hlt. induction Hall as [| s' sequence Hs' _ IH]; [done |].
  rewrite filter_cons_False; [done |]. intros <-. simpl in Hs'. lia.
Qed.

(** A sequence that never puts a higher kind first is its own
    arrangement by precedence. *)
Lemma byPrecedence_sorted_id sequence :
  StronglySorted notAfter sequence → byPrecedence sequence = sequence.
Proof.
  induction 1 as [| s sequence Hsorted IH Hall]; [done |].
  rewrite byPrecedence_unfold in *. rewrite !filter_cons.
  destruct (origin s) eqn:Hkind; simpl;
    rewrite ?(ofKind_below PackDefault s sequence) in * by (rewrite ?Hkind; simpl; done || lia);
    rewrite ?(ofKind_below SharedFile s sequence) in * by (rewrite ?Hkind; simpl; done || lia);
    rewrite ?(ofKind_below PackFile s sequence) in * by (rewrite ?Hkind; simpl; done || lia);
    rewrite ?(ofKind_below Environment s sequence) in * by (rewrite ?Hkind; simpl; done || lia);
    simpl in *; by rewrite IH.
Qed.

Lemma byPrecedence_inPrecedenceOrder sources :
  inPrecedenceOrder sources (byPrecedence sources).
Proof.
  split; [apply byPrecedence_sorted |]. intros k. apply ofKind_byPrecedence.
Qed.

(** The order of application is forced by the precedence rule. *)
Lemma inPrecedenceOrder_unique sources sequence :
  inPrecedenceOrder sources sequence → sequence = byPrecedence sources.
Proof.
  intros [Hsorted Hkinds].
  rewrite <- (byPrecedence_sorted_id sequence Hsorted).
  rewrite !byPrecedence_unfold. by rewrite !Hkinds.
Qed.

(** The one source that outranks all others is applied last. *)
Lemma byPrecedence_highest_last l1 s l2 :
  (∀ s', s' ∈ l1 ++ l2 → rank (origin s') < rank (origin s)) →
  ∃ earlier, byPrecedence (l1 ++ s :: l2) = earlier ++ [s]
             ∧ earlier ≡ₚ l1 ++ l2.
Proof.
  intros Hlow.
  pose proof (byPrecedence_perm (l1 ++ s :: l2)) as Hperm.
  pose proof (byPrecedence_sorted (l1 ++ s :: l2)) as Hsorted.
  destruct (byPrecedence (l1 ++ s :: l2)) as [| z rest _] using rev_ind.
  { apply Permutation_nil_l in Hperm. by destruct l1. }
  assert (z = s) as ->.
  { assert (z ∈ l1 ++ s :: l2) as Hz.
    { rewrite <- Hperm. apply elem_of_app. right. constructor. }
    assert (s ∈ rest ++ [z]) as Hs.
    { rewrite Hperm. apply elem_of_app. right. constructor. }
    apply elem_of_app in Hs as [Hs | Hs];
      [| by apply list_elem_of_singleton in Hs].
    apply StronglySorted_app in Hsorted as (Hcross & _ & _).
    assert (rank (origin s) ≤ rank (origin z)) as Hle.
    { apply Hcross; [done | constructor]. }
    rewrite elem_of_app, elem_of_cons in Hz.
    destruct Hz as [Hz | [Hz | Hz]]; [| done |].
    - assert (rank (origin z) < rank (origin s)); [| lia].
      apply Hlow, elem_of_app. by left.
    - assert (rank (origin z) < rank (origin s)); [| lia].
      apply Hlow, elem_of_app. by right. }
  exists rest. split; [done |].
  rewrite <- (Permutation_cons_append rest s) in Hperm.
  by apply Permutation_cons_app_inv in Hperm.
Qed.

End PrecedenceFacts.

Section SlotFacts.

Import Diagnostics Resolver.

Implicit Types (s : VariableSource) (st : Slot) (v : VariableSpec).
Implicit Types (alias : PackAlias).

Lemma assign_accepted alias v st s :
  accepted st s → current (assign alias v st s) = Some (value s).
Proof.
  intros [Hnull Hfits]. unfold assign. rewrite Hnull.
  destruct (expected st) as [t |] eqn:Ht; [| done].
  by rewrite (Hfits t eq_refl).
Qed.

Lemma assign_rejected alias v st s t :
  cty.IsNull (value s) = false → expected st = Some t →
  conforms t (cty.TypeOf (value s)) = false →
  current (assign alias v st s) = current st ∧
  raised (assign alias v st s) = Add (raised st) (typeMismatch alias v).
Proof.
  intros Hnull Ht Hclash. unfold assign. by rewrite Hnull, Ht, Hclash.
Qed.

Lemma assign_expected alias v st s :
  expected (assign alias v st s) = expected st
  ∨ (expected st = None ∧
     expected (assign alias v st s) = Some (cty.TypeOf (value s))).
Proof.
  unfold assign. destruct (cty.IsNull (value s)); [by left |].
  destruct (expected st) as [t |] eqn:Ht; [| by right].
  destruct (conforms t (cty.TypeOf (value s))); by left.
Qed.

(** The type in force: the spec's own once there is one, else the type
    of a value applied earlier. *)
Lemma fold_assign_expected alias v sequence st :
  expected (fold_left (assign alias v) sequence st) = expected st
  ∨ (expected st = None ∧
     ∃ s, s ∈ sequence ∧
       expected (fold_left (assign alias v) sequence st)
       = Some (cty.TypeOf (value s))).
Proof.
  revert st. induction sequence as [| s sequence IH]; intros st; [by left |].
  simpl.
  destruct (IH (assign alias v st s)) as [Hsame | (Hnone & s' & Hin & Hty)];
    destruct (assign_expected alias v st s) as [Hstep | [Hunset Hstep]].
  - left. by rewrite Hsame.
  - right. split; [done |]. exists s. split; [by left | by rewrite Hsame].
  - right. split; [by rewrite <- Hstep |]. exists s'. split; [by right | done].
  - congruence.
Qed.

(** Applying sources raises nothing but [TypeMismatch] warnings. *)
Lemma fold_assign_raised alias v sequence st :
  ∃ n, raised (fold_left (assign alias v) sequence st)
       = raised st ++ replicate n (typeMismatch alias v).
Proof.
  revert st. induction sequence as [| s sequence IH]; intros st.
  - exists 0. simpl. by rewrite app_nil_r.
  - simpl. destruct (IH (assign alias v st s)) as [n Hn]. rewrite Hn.
    unfold assign. destruct (cty.IsNull (value s)); [by exists n |].
    destruct (expected st) as [t |]; [| by exists n].
    destruct (conforms t (cty.TypeOf (value s))); [by exists n |].
    exists (S n). simpl. unfold Add. by rewrite <- app_assoc.
Qed.

Lemma start_raised v : raised (start v) = [].
Proof. done. Qed.

Lemma resolveSpec_value ignoreMissing sources sp :
  (resolveSpec ignoreMissing sources sp).1
  = current (fold_left (assign sp.1 sp.2) (applied sp sources) (start sp.2)).
Proof.
  unfold resolveSpec, conclude.
  destruct (current _); [done |]. by destruct (cty.IsNull _).
Qed.

(** The diagnostics of one spec: type mismatches, then at most the
    missing-value one. *)
Lemma resolveSpec_diags ignoreMissing sources sp :
  ∃ n,
    (resolveSpec ignoreMissing sources sp).2
    = replicate n (typeMismatch sp.1 sp.2) ++
      match (resolveSpec ignoreMissing sources sp).1 with
      | Some _ => []
      | None =>
          if cty.IsNull (Default sp.2)
          then [missingRequired ignoreMissing sp.1 sp.2] else []
      end.
Proof.
  destruct (fold_assign_raised sp.1 sp.2 (applied sp sources) (start sp.2))
    as [n Hn].
  exists n. unfold resolveSpec, conclude. rewrite start_raised in Hn.
  destruct (current _); simpl.
  - by rewrite Hn, app_nil_r.
  - destruct (cty.IsNull _); simpl.
    + unfold Add. by rewrite Hn.
    + by rewrite Hn, app_nil_r.
Qed.

Lemma fold_assign_null alias v sequence st :
  Forall (fun s => cty.IsNull (value s) = true) sequence →
  fold_left (assign alias v) sequence st = st.
Proof.
  intros Hnull. revert st.
  induction Hnull as [| s sequence Hs _ IH]; intros st; [done |].
  simpl. rewrite IH. unfold assign. by rewrite Hs.
Qed.

(** With no source supplying a value, a spec keeps its default. *)
Lemma resolveSpec_unsupplied ignoreMissing sources sp :
  Forall (fun s => cty.IsNull (value s) = true)
    (matching sp.1 (Name sp.2) sources) →
  resolveSpec ignoreMissing sources sp
  = if cty.IsNull (Default sp.2)
    then (None, [missingRequired ignoreMissing sp.1 sp.2])
    else (Some (Default sp.2), []).
Proof.
  intros Hnone. unfold resolveSpec, applied.
  rewrite fold_assign_null by (by rewrite byPrecedence_perm).
  unfold conclude, start. simpl. by destruct (cty.IsNull (Default sp.2)).
Qed.

(** The source that outranks every other one reaching a spec decides
    the value, provided it carries one and the value fits. *)
Lemma resolveSpec_highest ignoreMissing sources sp l1 s l2 :
  matching sp.1 (Name sp.2) sources = l1 ++ s :: l2 →
  (∀ s', s' ∈ l1 ++ l2 → rank (origin s') < rank (origin s)) →
  cty.IsNull (value s) = false →
  (∀ t, inferredType sp.2 = Some t →
        conforms t (cty.TypeOf (value s)) = true) →
  (inferredType sp.2 = None →
   ∀ s', s' ∈ l1 ++ l2 →
         conforms (cty.TypeOf (value s')) (cty.TypeOf (value s)) = true) →
  (resolveSpec ignoreMissing sources sp).1 = Some (value s).
Proof.
  intros Hmatch Hlow Hnull Htyped Huntyped.
  rewrite resolveSpec_value. unfold applied. rewrite Hmatch.
  destruct (byPrecedence_highest_last l1 s l2 Hlow) as (earlier & -> & Hperm).
  rewrite fold_left_app. simpl. apply assign_accepted. split; [done |].
  intros t Ht.
  destruct (fold_assign_expected sp.1 sp.2 earlier (start sp.2))
    as [Hsame | (Hnone & s' & Hin & Hty)].
  - apply Htyped. by rewrite <- Ht, Hsame.
  - rewrite Hty in Ht. injection Ht as <-.
    apply Huntyped; [done |]. by rewrite <- Hperm.
Qed.

End SlotFacts.

Section ResolveFacts.

Import Diagnostics Resolver.

Implicit Types (sp : OwnedSpec) (st : State) (specs : list OwnedSpec).
Implicit Types (sources : list VariableSource) (rs : ResolvedVariableSet).

Lemma lookupVar_empty alias name : lookupVar alias name ∅ = None.
Proof. unfold lookupVar. by rewrite lookup_empty. Qed.

Lemma lookupVar_setVar alias name x rs :
  lookupVar alias name (setVar alias name x rs) = Some x.
Proof.
  unfold lookupVar, setVar. rewrite lookup_insert_eq. simpl.
  by rewrite lookup_insert_eq.
Qed.

Lemma lookupVar_setVar_ne alias name alias' name' x rs :
  (alias, name) ≠ (alias', name') →
  lookupVar alias' name' (setVar alias name x rs) = lookupVar alias' name' rs.
Proof.
  intros Hne. unfold lookupVar, setVar.
  destruct (decide (alias = alias')) as [<- | Halias].
  - rewrite lookup_insert_eq. simpl.
    rewrite lookup_insert_ne by congruence.
    by destruct (rs !! alias).
  - by rewrite lookup_insert_ne.
Qed.

Lemma visit_lookup_ne ignoreMissing sources st sp alias name :
  key sp ≠ (alias, name) →
  lookupVar alias name (visit ignoreMissing sources st sp).1
  = lookupVar alias name st.1.
Proof.
  intros Hne. unfold visit, record. simpl.
  destruct (resolveSpec ignoreMissing sources sp).1; [| done].
  by apply lookupVar_setVar_ne.
Qed.

Lemma visit_lookup ignoreMissing sources st sp :
  lookupVar sp.1 (Name sp.2) (visit ignoreMissing sources st sp).1
  = match (resolveSpec ignoreMissing sources sp).1 with
    | Some x => Some x
    | None => lookupVar sp.1 (Name sp.2) st.1
    end.
Proof.
  unfold visit, record. simpl.
  destruct (resolveSpec ignoreMissing sources sp).1; [| done].
  apply lookupVar_setVar.
Qed.

(** A variable no visited spec declares stays as it was. *)
Lemma fold_visit_absent ignoreMissing sources specs st alias name :
  (alias, name) ∉ key <$> specs →
  lookupVar alias name (fold_left (visit ignoreMissing sources) specs st).1
  = lookupVar alias name st.1.
Proof.
  revert st. induction specs as [| sp specs IH]; intros st Hnot; [done |].
  rewrite fmap_cons, not_elem_of_cons in Hnot. destruct Hnot as [Hne Hnot].
  simpl. rewrite IH by done. by apply visit_lookup_ne.
Qed.

(** With every variable declared once, a visited spec ends with the
    value its own resolution gave it. *)
Lemma fold_visit_present ignoreMissing sources specs st sp :
  NoDup (key <$> specs) → sp ∈ specs →
  lookupVar sp.1 (Name sp.2)
    (fold_left (visit ignoreMissing sources) specs st).1
  = match (resolveSpec ignoreMissing sources sp).1 with
    | Some x => Some x
    | None => lookupVar sp.1 (Name sp.2) st.1
    end.
Proof.
  revert st. induction specs as [| sp0 specs IH]; intros st Hnodup Hin.
  { by apply elem_of_nil in Hin. }
  rewrite fmap_cons in Hnodup. apply NoDup_cons in Hnodup as [Hfresh Hnodup].
  simpl. apply elem_of_cons in Hin as [-> | Hin].
  - rewrite fold_visit_absent by done. apply visit_lookup.
  - rewrite IH by done. rewrite visit_lookup_ne; [done |].
    intros Heq. apply Hfresh. rewrite Heq.
    by apply (list_elem_of_fmap_2 key) in Hin.
Qed.

Lemma fold_visit_diags ignoreMissing sources specs st :
  (fold_left (visit ignoreMissing sources) specs st).2
  = st.2 ++ (specs ≫= fun sp => (resolveSpec ignoreMissing sources sp).2).
Proof.
  revert st. induction specs as [| sp specs IH]; intros st; simpl.
  - by rewrite app_nil_r.
  - rewrite IH. unfold visit, record. simpl. by rewrite <- app_assoc.
Qed.

(** The resolved set, one variable at a time. *)
Lemma Resolve_lookup tree sources ignoreMissing sp :
  NoDup (key <$> specsOf [] tree) → sp ∈ specsOf [] tree →
  lookupVar sp.1 (Name sp.2) (Resolve tree sources ignoreMissing).1
  = (resolveSpec ignoreMissing sources sp).1.
Proof.
  intros Hnodup Hin. unfold Resolve. simpl.
  rewrite fold_visit_present by done. simpl.
  rewrite lookupVar_empty. by destruct (resolveSpec _ _ _).1.
Qed.

Lemma Resolve_lookup_undeclared tree sources ignoreMissing alias name :
  (alias, name) ∉ key <$> specsOf [] tree →
  lookupVar alias name (Resolve tree sources ignoreMissing).1 = None.
Proof.
  intros Hnot. unfold Resolve. simpl.
  rewrite fold_visit_absent by done. apply lookupVar_empty.
Qed.

(** The diagnostics, in the order raised: spec by spec, then the
    sources that name no declared variable. *)
Lemma Resolve_diags tree sources ignoreMissing :
  (Resolve tree sources ignoreMissing).2
  = (specsOf [] tree ≫= fun sp => (resolveSpec ignoreMissing sources sp).2)
    ++ (unknownVariable <$> strays (specsOf [] tree) sources).
Proof. unfold Resolve. simpl. by rewrite fold_Add, fold_visit_diags. Qed.

Lemma resolveSpec_diags_in_Resolve tree sources ignoreMissing sp d :
  sp ∈ specsOf [] tree → d ∈ (resolveSpec ignoreMissing sources sp).2 →
  d ∈ (Resolve tree sources ignoreMissing).2.
Proof.
  intros Hin Hd. rewrite Resolve_diags, elem_of_app. left.
  apply list_elem_of_bind. eauto.
Qed.

(** What a resolution can raise as an error. *)
Lemma Resolve_errors tree sources ignoreMissing d :
  d ∈ (Resolve tree sources ignoreMissing).2 → severity d = DiagError →
  ignoreMissing = false ∧ kind d = MissingRequired.
Proof.
  rewrite Resolve_diags, elem_of_app. intros [Hd | Hd] Herr.
  - apply list_elem_of_bind in Hd as (sp & Hd & _).
    destruct (resolveSpec_diags ignoreMissing sources sp) as [n Hn].
    rewrite Hn in Hd. apply elem_of_app in Hd as [Hd | Hd].
    + apply elem_of_replicate in Hd as [-> _]. discriminate.
    + destruct (resolveSpec _ _ _).1; [by apply elem_of_nil in Hd |].
      destruct (cty.IsNull _); [| by apply elem_of_nil in Hd].
      apply list_elem_of_singleton in Hd as ->.
      destruct ignoreMissing; [discriminate | done].
  - apply list_elem_of_fmap in Hd as (s & -> & _). discriminate.
Qed.

Lemma Resolve_ignoreMissing_no_errors tree sources :
  HasErrors (Resolve tree sources true).2 = false.
Proof.
  apply not_true_iff_false. intros Herr.
  apply HasErrors_true in Herr as (d & Hd & Hsev).
  by destruct (Resolve_errors _ _ _ _ Hd Hsev).
Qed.

End ResolveFacts.

Section RunFacts.

Import Diagnostics Resolver.

Implicit Types (sp : OwnedSpec) (st : State) (specs : list OwnedSpec).
Implicit Types (sources : list VariableSource).

(** C3.  A spec without default to which no matching source supplies a
    value gets a [MissingRequired] diagnostic: an error, and the
    resolution has errors, unless [ignoreMissing] is set; then it is a
    warning and the resolution has no errors.  The variable is not in
    the resolved set. *)
Theorem missing_required_reported (tree : Pack)
    (sources : list VariableSource) (ignoreMissing : bool) (sp : OwnedSpec) :
  NoDup (key <$> specsOf [] tree) →
  sp ∈ specsOf [] tree →
  cty.IsNull (Default sp.2) = true →
  Forall (fun s => cty.IsNull (value s) = true)
    (matching sp.1 (Name sp.2) sources) →
  let out := Resolve tree sources ignoreMissing in
  missingRequired ignoreMissing sp.1 sp.2 ∈ out.2
  ∧ kind (missingRequired ignoreMissing sp.1 sp.2) = MissingRequired
  ∧ severity (missingRequired ignoreMissing sp.1 sp.2)
    = (if ignoreMissing then DiagWarning else DiagError)
  ∧ HasErrors out.2 = negb ignoreMissing
  ∧ lookupVar sp.1 (Name sp.2) out.1 = None.
Proof.
  intros Hnodup Hin Hrequired Hnone out.
  pose proof (resolveSpec_unsupplied ignoreMissing sources sp Hnone) as Hsp.
  rewrite Hrequired in Hsp.
  assert (missingRequired ignoreMissing sp.1 sp.2 ∈ out.2) as Hraised.
  { apply (resolveSpec_diags_in_Resolve _ _ _ sp); [done |].
    rewrite Hsp. constructor. }
  repeat split; [done | | ].
  - destruct ignoreMissing; simpl.
    + apply Resolve_ignoreMissing_no_errors.
    + apply HasErrors_true. eauto.
  - unfold out. rewrite Resolve_lookup by done. by rewrite Hsp.
Qed.

End RunFacts.

Section PrecedenceClaims.

Import Diagnostics Resolver.

Implicit Types (sp : OwnedSpec) (s : VariableSource).
Implicit Types (sources : list VariableSource).

Lemma matching_qualified sources alias name q qs :
  qualifiedFor alias name sources = q :: qs →
  matching alias name sources = q :: qs.
Proof. unfold matching. by intros ->. Qed.

Lemma matching_bare sources alias name :
  qualifiedFor alias name sources = [] →
  matching alias name sources = bareFor name sources.
Proof. unfold matching. by intros ->. Qed.

Lemma applied_elem_of sp sources s :
  s ∈ applied sp sources ↔ s ∈ matching sp.1 (Name sp.2) sources.
Proof. unfold applied. by rewrite byPrecedence_perm. Qed.

(** C1.  The kinds of source rank, lowest first: pack default, shared
    file, per-pack file, environment, command line.  The sources that
    reach a spec are applied in that order, every one of them, each kind
    as supplied; the value resolved is the one left by the last
    application; an application overwrites whenever the source carries a
    value that passes type reconciliation; so the source that outranks
    all others decides.  In any tree, a variable declared with default
    "a" (as a string, or with no type) and given "b" by a shared file and
    "c" on the command line, under its qualified name, resolves to
    "c". *)
Theorem sources_apply_in_precedence_order :
  (rank PackDefault < rank SharedFile ∧ rank SharedFile < rank PackFile
   ∧ rank PackFile < rank Environment ∧ rank Environment < rank CommandLine)
  ∧ (∀ sources sp,
       inPrecedenceOrder (matching sp.1 (Name sp.2) sources) (applied sp sources)
       ∧ applied sp sources ≡ₚ matching sp.1 (Name sp.2) sources)
  ∧ (∀ ignoreMissing sources sp,
       (resolveSpec ignoreMissing sources sp).1
       = current (fold_left (assign sp.1 sp.2) (applied sp sources)
                    (start sp.2)))
  ∧ (∀ alias v st s,
       accepted st s → current (assign alias v st s) = Some (value s))
  ∧ (∀ ignoreMissing sources sp l1 s l2,
       matching sp.1 (Name sp.2) sources = l1 ++ s :: l2 →
       (∀ s', s' ∈ l1 ++ l2 → rank (origin s') < rank (origin s)) →
       cty.IsNull (value s) = false →
       (∀ t, inferredType sp.2 = Some t →
             conforms t (cty.TypeOf (value s)) = true) →
       (inferredType sp.2 = None →
        ∀ s', s' ∈ l1 ++ l2 →
              conforms (cty.TypeOf (value s')) (cty.TypeOf (value s)) = true) →
       (resolveSpec ignoreMissing sources sp).1 = Some (value s))
  ∧ (∀ tree ignoreMissing sp sources,
       NoDup (key <$> specsOf [] tree) →
       sp ∈ specsOf [] tree →
       Default sp.2 = cty.StringVal "a" →
       Type_ sp.2 = cty.NilType ∨ Type_ sp.2 = cty.String_ →
       let b := {| origin := SharedFile; target := (Some sp.1, Name sp.2);
                   value := cty.StringVal "b" |} in
       let c := {| origin := CommandLine; target := (Some sp.1, Name sp.2);
                   value := cty.StringVal "c" |} in
       sources = [b; c] ∨ sources = [c; b] →
       lookupVar sp.1 (Name sp.2) (Resolve tree sources ignoreMissing).1
       = Some (cty.StringVal "c")).
Proof.
  split; [simpl; lia |].
  split; [intros sources sp; split;
          [apply byPrecedence_inPrecedenceOrder | apply byPrecedence_perm] |].
  split; [apply resolveSpec_value |].
  split; [apply assign_accepted |].
  split; [apply resolveSpec_highest |].
  intros tree ignoreMissing sp sources Hnodup Hin Hdefault Hty b c Hsources.
  rewrite Resolve_lookup by done.
  assert (∀ t, inferredType sp.2 = Some t →
               conforms t (cty.TypeOf (value c)) = true) as Hfits.
  { unfold inferredType. rewrite Hdefault.
    destruct Hty as [-> | ->]; simpl; by intros t [= <-]. }
  assert (inferredType sp.2 ≠ None) as Htyped.
  { unfold inferredType. rewrite Hdefault. by destruct Hty as [-> | ->]. }
  destruct Hsources as [-> | ->].
  - apply (resolveSpec_highest _ _ _ [b] c []); try done.
    + apply matching_qualified. unfold qualifiedFor.
      by rewrite !filter_cons_True by done.
    + intros s' Hs'. apply list_elem_of_singleton in Hs' as ->. simpl. lia.
  - apply (resolveSpec_highest _ _ _ [] c [b]); try done.
    + apply matching_qualified. unfold qualifiedFor.
      by rewrite !filter_cons_True by done.
    + intros s' Hs'. apply list_elem_of_singleton in Hs' as ->. simpl. lia.
Qed.

Lemma qualifiedFor_nonempty_matching sources sp :
  qualifiedFor sp.1 (Name sp.2) sources ≠ [] →
  matching sp.1 (Name sp.2) sources = qualifiedFor sp.1 (Name sp.2) sources.
Proof. unfold matching. by destruct (qualifiedFor _ _ _). Qed.

Lemma qualifiedFor_without_bare sources alias name :
  qualifiedFor alias name
    (filter (fun s => target s ≠ (None, name)) sources)
  = qualifiedFor alias name sources.
Proof.
  unfold qualifiedFor. rewrite list_filter_filter.
  apply list_filter_iff. intros s. split; [tauto |].
  intros Hs. split; [done |]. rewrite Hs. discriminate.
Qed.

(** C2.  A bare-named source is applied to the variable of that name in
    every pack for which no pack-qualified source exists.  Where one
    exists the sources applied are exactly the qualified ones, and the
    bare ones, of whatever kind, change nothing.  With a bare [x=1] and
    a qualified [child.x=2] of any two kinds, in either order, [x]
    resolves to 2 in pack [child] and to 1 in every other pack that
    declares an [x] taking numbers. *)
Theorem qualified_source_wins :
  (∀ sources sp s,
     s ∈ sources → target s = (None, Name sp.2) →
     qualifiedFor sp.1 (Name sp.2) sources = [] →
     s ∈ applied sp sources)
  ∧ (∀ sources sp,
       qualifiedFor sp.1 (Name sp.2) sources ≠ [] →
       (∀ s, s ∈ applied sp sources
             ↔ s ∈ sources ∧ target s = (Some sp.1, Name sp.2))
       ∧ ∀ ignoreMissing,
           resolveSpec ignoreMissing sources sp
           = resolveSpec ignoreMissing
               (filter (fun s => target s ≠ (None, Name sp.2)) sources) sp)
  ∧ (∀ tree ignoreMissing kb kq child x sources sp,
       NoDup (key <$> specsOf [] tree) →
       let bare := {| origin := kb; target := (None, x);
                      value := cty.NumberIntVal 1 |} in
       let qualified := {| origin := kq; target := (Some child, x);
                           value := cty.NumberIntVal 2 |} in
       sources = [bare; qualified] ∨ sources = [qualified; bare] →
       sp ∈ specsOf [] tree → Name sp.2 = x →
       (∀ t, inferredType sp.2 = Some t → conforms t cty.Number = true) →
       lookupVar sp.1 x (Resolve tree sources ignoreMissing).1
       = Some (cty.NumberIntVal (if decide (sp.1 = child) then 2 else 1))).
Proof.
  split; [| split].
  - intros sources sp s Hin Hbare Hnone.
    rewrite applied_elem_of, matching_bare by done.
    by apply list_elem_of_filter.
  - intros sources sp Hsome. split.
    + intros s. rewrite applied_elem_of, qualifiedFor_nonempty_matching by done.
      unfold qualifiedFor. rewrite list_elem_of_filter. tauto.
    + intros ignoreMissing. unfold resolveSpec, applied.
      rewrite !qualifiedFor_nonempty_matching;
        rewrite ?qualifiedFor_without_bare; done.
  - intros tree ignoreMissing kb kq child x sources sp Hnodup bare qualified
      Hsources Hin Hname Hnumber.
    rewrite <- Hname at 1. rewrite Resolve_lookup by done.
    destruct (decide (sp.1 = child)) as [Hchild | Hchild].
    + apply (resolveSpec_highest _ _ _ [] qualified []); try done.
      * apply matching_qualified. unfold qualifiedFor.
        destruct Hsources as [-> | ->].
        -- rewrite filter_cons_False by done.
           by rewrite filter_cons_True by (simpl; congruence).
        -- rewrite filter_cons_True by (simpl; congruence).
           by rewrite filter_cons_False by done.
      * intros s' Hs'. by apply elem_of_nil in Hs'.
      * intros _ s' Hs'. by apply elem_of_nil in Hs'.
    + apply (resolveSpec_highest _ _ _ [] bare []); try done.
      * rewrite matching_bare.
        -- unfold bareFor. destruct Hsources as [-> | ->].
           ++ rewrite filter_cons_True by (simpl; congruence).
              by rewrite filter_cons_False by done.
           ++ rewrite filter_cons_False by done.
              by rewrite filter_cons_True by (simpl; congruence).
        -- unfold qualifiedFor. destruct Hsources as [-> | ->].
           ++ rewrite filter_cons_False by done.
              by rewrite filter_cons_False by (simpl; congruence).
           ++ rewrite filter_cons_False by (simpl; congruence).
              by rewrite filter_cons_False by done.
      * intros s' Hs'. by apply elem_of_nil in Hs'.
      * intros _ s' Hs'. by apply elem_of_nil in Hs'.
Qed.

End PrecedenceClaims.

Section ExitFacts.

Import Diagnostics Resolver InfoCommand.

Variable quote : string → string.
Variable FriendlyName : cty.Typ → string.
Variable helpUsageMessage : string.
Variable ErrParsingArgsOrFlags : string.
Variable diagsError : Diagnostics.t → string.
Variables VarFiles Parser ParsedVariables : Type.
Variable packRootVariableFiles : Pack → VarFiles.
Variable NewParser : ParserConfig VarFiles → Parser + error.
Variable Parse : Parser → ParsedVariables * Diagnostics.t.
Variable GetVars : ParsedVariables → list (string * list VariableSpec).

(** After [Parse], [info] fails exactly on a diagnostic of severity
    error. *)
Lemma report_exit (p : Pack) (parsed : ParsedVariables * Diagnostics.t) :
  report quote FriendlyName diagsError ParsedVariables GetVars p parsed
  = if HasErrors parsed.2
    then (1%Z, [Info (diagsError parsed.2)])
    else (0%Z, [RenderFrame
                  (headerRows p ++
                   flat_map (packRows quote FriendlyName) (GetVars parsed.1))]).
Proof.
  destruct parsed as [parsedVars diags]. unfold report. simpl.
  by destruct diags.
Qed.

(** C5.  The accumulator keeps whatever is added, error or warning;
    it has errors exactly when it holds a diagnostic of severity error;
    a resolution runs to its end and returns every diagnostic raised
    for every spec; and [info], once the pack is loaded and the parser
    built, exits with 1 exactly when the diagnostics of [Parse] have
    errors, and with 0, the frame rendered, when they hold warnings
    only. *)
Theorem only_errors_fail_the_command :
  (∀ (ds : Diagnostics.t) (d d' : Diagnostic),
     d' ∈ Add ds d ↔ d' ∈ ds ∨ d' = d)
  ∧ (∀ ds : Diagnostics.t,
       HasErrors ds = true ↔ ∃ d, d ∈ ds ∧ severity d = DiagError)
  ∧ (∀ tree sources ignoreMissing sp d,
       sp ∈ specsOf [] tree →
       d ∈ (resolveSpec ignoreMissing sources sp).2 →
       d ∈ (Resolve tree sources ignoreMissing).2)
  ∧ (∀ ignoreMissingVars inv p variableParser,
       initResult inv = None →
       verifyResult inv = None →
       loadResult inv = inl p →
       NewParser {| ParentPack := p;
                    RootVariableFiles := packRootVariableFiles p;
                    IgnoreMissingVars := ignoreMissingVars |}
       = inl variableParser →
       let diags := (Parse variableParser).2 in
       let out := Run quote FriendlyName helpUsageMessage ErrParsingArgsOrFlags
                    diagsError VarFiles Parser ParsedVariables
                    packRootVariableFiles NewParser Parse GetVars
                    ignoreMissingVars inv in
       (out.1 = 1%Z ↔ HasErrors diags = true)
       ∧ (out.1 = 0%Z ↔ HasErrors diags = false)
       ∧ (Forall (fun d => severity d = DiagWarning) diags →
          out = (0%Z,
                 [RenderFrame
                    (headerRows p ++
                     flat_map (packRows quote FriendlyName)
                       (GetVars (Parse variableParser).1))]))).
Proof.
  split; [apply elem_of_Add |].
  split; [apply HasErrors_true |].
  split; [apply resolveSpec_diags_in_Resolve |].
  intros ignoreMissingVars inv p variableParser Hinit Hverify Hload Hparser
    diags out.
  assert (out = report quote FriendlyName diagsError ParsedVariables GetVars p
                  (Parse variableParser)) as Hout.
  { unfold out, Run. by rewrite Hinit, Hverify, Hload, Hparser. }
  rewrite Hout, report_exit. fold diags.
  split; [| split].
  - by destruct (HasErrors diags).
  - by destruct (HasErrors diags).
  - intros Hwarnings. apply HasErrors_false in Hwarnings. by rewrite Hwarnings.
Qed.

End ExitFacts.

(* ================================================================= *)
(** * The claims at work on the sample tree *)

Section Witnesses.

Import Diagnostics Resolver Samples.

Lemma rootPack_declares_once : NoDup (key <$> specsOf [] rootPack).
Proof. apply (bool_decide_unpack _). by vm_compute. Defined.

(** C1 at work: "c" from the command line beats "b" from a shared file
    and the default "a". *)
Lemma sources_apply_in_precedence_order_witness :
  lookupVar [] "message" (Resolve rootPack [sharedB; cliC] false).1
  = Some (cty.StringVal "c")
  ∧ (resolveSpec false [cliC; sharedB] ([], greeting)).1
    = Some (cty.StringVal "c").
Proof.
  destruct sources_apply_in_precedence_order
    as (_ & _ & _ & _ & Hhighest & Hexample).
  split.
  - apply (Hexample rootPack false ([], greeting) [sharedB; cliC]).
    + exact rootPack_declares_once.
    + left.
    + reflexivity.
    + left. reflexivity.
    + left. reflexivity.
  - apply (Hhighest false [cliC; sharedB] ([], greeting) [] cliC [sharedB]).
    + reflexivity.
    + intros s' Hs'. apply list_elem_of_singleton in Hs'. subst s'.
      simpl. lia.
    + reflexivity.
    + intros t Ht. injection Ht as <-. reflexivity.
    + discriminate.
Defined.

(** C2 at work: [child.x=2] from a shared file beats [x=1] from the
    command line in pack [child]; pack [other] gets 1. *)
Lemma qualified_source_wins_witness :
  lookupVar ["child"] "x" (Resolve rootPack [bareX; childX] false).1
  = Some (cty.NumberIntVal 2)
  ∧ lookupVar ["other"] "x" (Resolve rootPack [bareX; childX] false).1
    = Some (cty.NumberIntVal 1).
Proof.
  destruct qualified_source_wins as (_ & _ & Hexample).
  split.
  - apply (Hexample rootPack false CommandLine SharedFile ["child"] "x"
             [bareX; childX] (["child"], count)).
    + exact rootPack_declares_once.
    + left. reflexivity.
    + right. right. left.
    + reflexivity.
    + intros t Ht. injection Ht as <-. reflexivity.
  - apply (Hexample rootPack false CommandLine SharedFile ["child"] "x"
             [bareX; childX] (["other"], count)).
    + exact rootPack_declares_once.
    + left. reflexivity.
    + right. right. right. right. left.
    + reflexivity.
    + intros t Ht. injection Ht as <-. reflexivity.
Defined.

(** C3 at work: [region] of pack [child] has no default and no source. *)
Lemma missing_required_reported_witness :
  HasErrors (Resolve rootPack [bareX; noRegion] false).2 = true
  ∧ HasErrors (Resolve rootPack [bareX; noRegion] true).2 = false
  ∧ lookupVar ["child"] "region" (Resolve rootPack [bareX; noRegion] true).1
    = None.
Proof.
  pose proof (missing_required_reported rootPack [bareX; noRegion] false
                (["child"], region) rootPack_declares_once) as Herror.
  pose proof (missing_required_reported rootPack [bareX; noRegion] true
                (["child"], region) rootPack_declares_once) as Hwarning.
  split; [| split].
  - apply Herror;
      [right; right; right; left | reflexivity | repeat constructor].
  - apply Hwarning;
      [right; right; right; left | reflexivity | repeat constructor].
  - apply Hwarning;
      [right; right; right; left | reflexivity | repeat constructor].
Defined.

(** C5 at work: [info] on the child pack, whose [region] is required,
    fails, and succeeds once missing variables are ignored. *)
Lemma only_errors_fail_the_command_witness :
  let run ignoreMissingVars :=
    InfoCommand.Run id (fun _ => "type") "usage" "args" (fun _ => "diags")
      unit (InfoCommand.ParserConfig unit) (list (string * list VariableSpec))
      (fun _ => ()) inl parseRoot id ignoreMissingVars
      (InfoCommand.mkInvocation None [] None (inl childPack)) in
  (run false).1 = 1%Z ∧ (run true).1 = 0%Z.
Proof.
  intros run.
  destruct (only_errors_fail_the_command id (fun _ => "type") "usage" "args"
              (fun _ => "diags") unit (InfoCommand.ParserConfig unit)
              (list (string * list VariableSpec)) (fun _ => ()) inl parseRoot id)
    as (_ & _ & _ & Hexit).
  split.
  - apply (Hexit false (InfoCommand.mkInvocation None [] None (inl childPack))
             childPack
             (InfoCommand.mkParserConfig childPack () false));
      reflexivity.
  - apply (Hexit true (InfoCommand.mkInvocation None [] None (inl childPack))
             childPack
             (InfoCommand.mkParserConfig childPack () true));
      reflexivity.
Defined.

End Witnesses.

(* ================================================================= *)
(** * The definitions run on the samples *)

Section Runs.

Import Diagnostics Resolver Samples.

Example validateStatusArgs_three :
  StatusCommand.validateStatusArgs (StatusCommand.mkBaseCommand [] EmptyString)
    ["a"; "b"; "c"]
  = Some "this command accepts at most 1 arg, received 3".
Proof. reflexivity. Qed.

Example validateStatusArgs_name_alone :
  StatusCommand.validateStatusArgs (StatusCommand.mkBaseCommand [] "dev") []
  = Some "--name can only be used if pack name is provided".
Proof. reflexivity. Qed.

Example validateStatusArgs_pack_and_name :
  StatusCommand.validateStatusArgs (StatusCommand.mkBaseCommand [] "dev")
    ["example"]
  = None.
Proof. reflexivity. Qed.

Example varType_samples :
  InfoCommand.varType shortName <$> [greeting; count; region;
                                     mkVariable "v" "d" cty.NilType cty.NilVal]
  = ["string"; "number"; "string"; "unknown"].
Proof. reflexivity. Qed.

Example variableRows_childPack :
  InfoCommand.variableRows plainQuote shortName [count; region; greeting]
  = [tab +:+ "- " +:+ plainQuote "region"
       +:+ " (string: required) - where to run";
     tab +:+ "- " +:+ plainQuote "x" +:+ " (number: optional) - how many";
     tab +:+ "- " +:+ plainQuote "message"
       +:+ " (string: optional) - what to say"].
Proof. reflexivity. Qed.

Example specsOf_rootPack :
  key <$> specsOf [] rootPack
  = [([], "message"); ([], "x"); (["child"], "x"); (["child"], "region");
     (["other"], "x")].
Proof. reflexivity. Qed.

Example applied_in_order :
  applied ([], greeting) [cliC; bareX; sharedB; childX] = [sharedB; cliC].
Proof. reflexivity. Qed.

(** The required [region] is missing; a list given to a number is
    dropped with a warning; a source for a variable nobody declares is
    reported. *)
Example Resolve_rootPack_diagnostics :
  (Resolve rootPack
     [ {| origin := Environment; target := (Some ["other"], "x");
          value := cty.ListVal cty.Number [cty.NumberIntVal 1] |};
       {| origin := CommandLine; target := (None, "colour");
          value := cty.StringVal "red" |} ]
     false).2
  = [ missingRequired false ["child"] region;
      typeMismatch ["other"] count;
      {| severity := DiagWarning; kind := UnknownVariable;
         subject := (None, "colour"); message := "UnknownVariable" |} ].
Proof. reflexivity. Qed.

Example Resolve_rootPack_values :
  let rs := (Resolve rootPack [sharedB; cliC; bareX; childX] true).1 in
  [lookupVar [] "message" rs; lookupVar [] "x" rs; lookupVar ["child"] "x" rs;
   lookupVar ["child"] "region" rs; lookupVar ["other"] "x" rs]
  = [Some (cty.StringVal "c"); Some (cty.NumberIntVal 1);
     Some (cty.NumberIntVal 2); None; Some (cty.NumberIntVal 1)].
Proof. vm_compute. reflexivity. Qed.

End Runs.

(* ================================================================= *)
(** * Properties of the non-interactive UI *)

Section SplitFacts.

Import gostrings.

Implicit Types (s line : string) (sep : ascii) (lines : list string).

Lemma Split_not_nil s sep : Split s sep ≠ [].
Proof.
  destruct s as [| c rest]; simpl; [done |].
  destruct (Ascii.eqb c sep); [done |]. by destruct (Split rest sep).
Qed.

Lemma Join_cons_cons a b lines (glue : string) :
  Join (a :: b :: lines) glue = a +:+ glue +:+ Join (b :: lines) glue.
Proof. done. Qed.

Lemma append_String c s s' : String c s +:+ s' = String c (s +:+ s').
Proof. done. Qed.

(** Splitting and joining back gives the string. *)
Lemma Join_Split s sep : Join (Split s sep) (String sep EmptyString) = s.
Proof.
  induction s as [| c rest IH]; [done |].
  simpl. destruct (Ascii.eqb c sep) eqn:Hc.
  - apply Ascii.eqb_eq in Hc as ->.
    pose proof (Split_not_nil rest sep) as Hne.
    destruct (Split rest sep) as [| line lines]; [done |].
    rewrite Join_cons_cons, IH. done.
  - pose proof (Split_not_nil rest sep) as Hne.
    destruct (Split rest sep) as [| line lines]; [done |].
    destruct lines as [| line' lines].
    + simpl in *. by rewrite IH.
    + rewrite Join_cons_cons in *. rewrite append_String. by rewrite IH.
Qed.

Lemma contains_append c s s' :
  contains c (s +:+ s') = contains c s || contains c s'.
Proof.
  induction s as [| c' rest IH]; [done |].
  simpl. rewrite IH. by rewrite orb_assoc.
Qed.

Lemma Split_one_line s sep : contains sep s = false → Split s sep = [s].
Proof.
  induction s as [| c rest IH]; [done |].
  simpl. intros Hno. apply orb_false_iff in Hno as [Hc Hrest].
  rewrite Hc, IH; done.
Qed.

Lemma Split_lines_one_line s sep :
  Forall (fun line => contains sep line = false) (Split s sep).
Proof.
  induction s as [| c rest IH]; simpl.
  - by constructor.
  - destruct (Ascii.eqb c sep) eqn:Hc.
    + by constructor.
    + destruct (Split rest sep) as [| line lines]; simpl.
      * constructor; [simpl; by rewrite Hc | done].
      * apply Forall_cons in IH as [Hline Hlines].
        constructor; [| done]. simpl. by rewrite Hc.
Qed.

Lemma Split_append_sep line s sep :
  contains sep line = false →
  Split (line +:+ String sep s) sep = line :: Split s sep.
Proof.
  induction line as [| c rest IH]; simpl.
  - intros _. by rewrite Ascii.eqb_refl.
  - intros Hno. apply orb_false_iff in Hno as [Hc Hrest].
    rewrite Hc, IH; done.
Qed.

(** Joining lines and splitting back gives the lines. *)
Lemma Split_Join lines sep :
  lines ≠ [] →
  Forall (fun line => contains sep line = false) lines →
  Split (Join lines (String sep EmptyString)) sep = lines.
Proof.
  intros Hne Hlines. induction Hlines as [| line lines Hline Hlines IH];
    [done |].
  destruct lines as [| line' lines].
  - simpl. by apply Split_one_line.
  - rewrite Join_cons_cons.
    change (String sep EmptyString +:+ Join (line' :: lines) (String sep EmptyString))
      with (String sep (Join (line' :: lines) (String sep EmptyString))).
    rewrite Split_append_sep by done. by rewrite IH.
Qed.

Lemma from_append prefix s : from (String.length prefix) (prefix +:+ s) = s.
Proof. induction prefix as [| c rest IH]; [by destruct s | done]. Qed.

End SplitFacts.

Section OutputFacts.

Import gostrings Terminal.

Variables colorDebug colorWarning colorTrace colorInfo : string → string.
Variable interpret : string → string.

Local Abbreviation Output := (Output colorDebug colorWarning colorTrace colorInfo).
Local Abbreviation Error :=
  (Error colorDebug colorWarning colorTrace colorInfo interpret).

Lemma errorLines_texts msg :
  (fun w => from 2 (text w)) <$> errorLines msg = Split msg newline.
Proof.
  unfold errorLines. destruct (Split msg newline) as [| first rest]; [done |].
  rewrite fmap_cons. f_equal. rewrite <- list_fmap_compose.
  induction rest as [| line rest IH]; [done |].
  rewrite fmap_cons. by f_equal.
Qed.

Lemma errorLines_marked msg : Forall marked (errorLines msg).
Proof.
  unfold errorLines. destruct (Split msg newline) as [| first rest];
    constructor.
  - exists first. by left.
  - apply Forall_fmap, Forall_true. intros line. exists line. by right.
Qed.

Lemma errorLines_not_nil msg : errorLines msg ≠ [].
Proof.
  intros Hnil. pose proof (errorLines_texts msg) as Htexts.
  rewrite Hnil in Htexts. by apply (Split_not_nil msg newline).
Qed.

(** The error style loses nothing of a message.  The message has a
    first line and the lines after it; [Output] writes the first after
    the error mark ["! "] and each of the others after two spaces, each
    as a whole line and in order, and nothing else; the lines written,
    less those two bytes, joined by newlines, are the message.
    [ErrorBoldStyle] does the same. *)
Theorem Output_error_keeps_message (msg : string) :
  let ws := Output ErrorStyle msg in
  Output ErrorBoldStyle msg = ws
  ∧ ws ≠ []
  ∧ Forall marked ws
  ∧ (fun w => from 2 (text w)) <$> ws = Split msg newline
  ∧ Join ((fun w => from 2 (text w)) <$> ws) (String newline EmptyString)
    = msg
  ∧ ∃ first rest,
      Split msg newline = first :: rest
      ∧ ws = Fprintln ("! " +:+ first)
               :: ((fun line => Fprintln ("  " +:+ line)) <$> rest).
Proof.
  cbv zeta.
  change (Output ErrorBoldStyle msg) with (errorLines msg).
  change (Output ErrorStyle msg) with (errorLines msg).
  split; [done |].
  pose proof (errorLines_texts msg) as Htexts.
  split; [apply errorLines_not_nil |].
  split; [apply errorLines_marked |].
  split; [done |].
  split; [rewrite Htexts; apply Join_Split |].
  unfold errorLines.
  pose proof (Split_not_nil msg newline) as Hlines.
  destruct (Split msg newline) as [| first rest]; [done |].
  by exists first, rest.
Qed.

(** Whatever the style, [Output] writes something and writes whole
    lines only. *)
Theorem Output_whole_lines (style : Style) (msg : string) :
  Output style msg ≠ [] ∧ Forall wholeLine (Output style msg).
Proof.
  destruct style; simpl;
    try (split; [done | by repeat constructor; eexists]).
  - split; [apply errorLines_not_nil |].
    eapply Forall_impl; [apply errorLines_marked |].
    intros w [rest [-> | ->]]; by eexists.
  - split; [apply errorLines_not_nil |].
    eapply Forall_impl; [apply errorLines_marked |].
    intros w [rest [-> | ->]]; by eexists.
Qed.

(** The info style keeps the lines of a message apart: when colouring
    puts no newline into a text that has none, the text written splits
    into the lines of the message, each indented by two spaces and
    coloured. *)
Theorem Output_info_lines (msg : string) :
  (∀ s, contains newline s = false →
        contains newline (colorInfo s) = false) →
  ∃ written,
    Output InfoStyle msg = [Fprintln written]
    ∧ Split written newline
      = (fun line => colorInfo ("  " +:+ line)) <$> Split msg newline.
Proof.
  intros Hcolour. exists (infoText colorInfo msg). split; [done |].
  unfold infoText. apply Split_Join.
  - pose proof (Split_not_nil msg newline). by destruct (Split msg newline).
  - apply Forall_fmap. eapply Forall_impl; [apply Split_lines_one_line |].
    intros line Hline. simpl. by apply Hcolour.
Qed.

End OutputFacts.

(** With colours off, [Info] on two lines. *)
Lemma Output_info_lines_witness :
  ∃ written,
    Terminal.Output id id id id Terminal.InfoStyle
      ("one" +:+ String gostrings.newline "two")
    = [Terminal.Fprintln written]
    ∧ gostrings.Split written gostrings.newline = ["  one"; "  two"].
Proof.
  apply (Output_info_lines id id id id
           ("one" +:+ String gostrings.newline "two")).
  intros s Hs. exact Hs.
Defined.

Section ContextFacts.

Import gostrings Terminal.

Variables colorDebug colorWarning colorTrace colorInfo : string → string.
Variable interpret : string → string.
Variable Title : string → string.
Variable WrapString : string → Z → string.
Variables UIContextErrorDetail UIContextErrorSuggestion : string.

Local Abbreviation Error :=
  (Error colorDebug colorWarning colorTrace colorInfo interpret).
Local Abbreviation promote :=
  (promote colorDebug colorWarning colorTrace colorInfo interpret WrapString).
Local Abbreviation contextLines :=
  (contextLines colorDebug colorWarning colorTrace colorInfo interpret).
Local Abbreviation ErrorWithContext :=
  (ErrorWithContext colorDebug colorWarning colorTrace colorInfo interpret
     Title WrapString UIContextErrorDetail UIContextErrorSuggestion).

(** [extractItem] takes out the first entry with the prefix and nothing
    else: the entries before it lack the prefix, and they and the
    entries after it are returned in their order.  When no entry has
    the prefix the context comes back as it was, with an empty item. *)
Theorem extractItem_first (ctx : list string) (key : string) :
  match extractItem ctx key with
  | (outCtx, item, true) =>
      ∃ before after,
        ctx = before ++ item :: after ∧ outCtx = before ++ after
        ∧ HasPrefix item key = true
        ∧ Forall (fun v => HasPrefix v key = false) before
  | (outCtx, item, false) =>
      outCtx = ctx ∧ item = EmptyString
      ∧ Forall (fun v => HasPrefix v key = false) ctx
  end.
Proof.
  induction ctx as [| v rest IH]; simpl; [done |].
  destruct (HasPrefix v key) eqn:Hv.
  - exists [], rest. done.
  - destruct (extractItem rest key) as [[outCtx item] found].
    destruct found.
    + destruct IH as (before & after & -> & -> & Hitem & Hbefore).
      exists (v :: before), after. repeat split; try done. by constructor.
    + destruct IH as (-> & -> & Hnone). repeat split. by constructor.
Qed.

(** Case analysis on the integer comparisons of a goal. *)
Local Ltac zcases :=
  repeat match goal with
         | |- context [(?a <? ?b)%Z] => destruct (Z.ltb_spec a b)
         | H : context [(?a <? ?b)%Z] |- _ => destruct (Z.ltb_spec a b)
         end.

Lemma Index_lower s substr : (-1 ≤ Index s substr)%Z.
Proof.
  induction s as [| c rest IH]; cbn [Index].
  - destruct (String.prefix substr EmptyString); lia.
  - destruct (String.prefix substr (String c rest)); [lia |].
    zcases; lia.
Qed.

(** Spaces in front move the first colon by their number. *)
Lemma Index_colon_after_spaces n s :
  (0 ≤ Index s ":")%Z →
  Index (copies " " n +:+ s) ":" = (Z.of_nat n + Index s ":")%Z.
Proof.
  intros Hfound. induction n as [| n IH].
  { change (copies " " 0 +:+ s) with s. lia. }
  change (copies " " (S n) +:+ s) with (String " " (copies " " n +:+ s)).
  cbn [Index String.prefix]. rewrite IH.
  destruct (Ascii.ascii_dec ":" " ") as [Heq | _]; [discriminate |].
  zcases; lia.
Qed.

Lemma colonColumn_from (ctx : list string) (start : Z) :
  let max :=
    fold_left
      (fun max entry =>
         let loc := (Index entry ":" + 1)%Z in
         if (max <? loc)%Z then loc else max)
      ctx start in
  (start ≤ max)%Z ∧ ∀ entry, entry ∈ ctx → (Index entry ":" + 1 ≤ max)%Z.
Proof.
  cbv zeta. revert start.
  induction ctx as [| e ctx IH]; intros start; cbn [fold_left].
  - split; [lia |]. intros entry Hin. by apply elem_of_nil in Hin.
  - destruct (IH (if (start <? Index e ":" + 1)%Z
                  then (Index e ":" + 1)%Z else start)) as [Hstart Hall].
    split.
    + zcases; lia.
    + intros entry Hin. apply elem_of_cons in Hin as [-> | Hin]; [| by apply Hall].
      zcases; lia.
Qed.

Lemma colonColumn_bounds (ctx : list string) :
  (0 ≤ colonColumn ctx)%Z
  ∧ ∀ entry, entry ∈ ctx → (Index entry ":" + 1 ≤ colonColumn ctx)%Z.
Proof. apply (colonColumn_from ctx 0). Qed.

Lemma colonColumn_attained_from (ctx : list string) (start : Z) :
  let max :=
    fold_left
      (fun max entry =>
         let loc := (Index entry ":" + 1)%Z in
         if (max <? loc)%Z then loc else max)
      ctx start in
  max = start ∨ ∃ entry, entry ∈ ctx ∧ max = (Index entry ":" + 1)%Z.
Proof.
  cbv zeta. revert start.
  induction ctx as [| e ctx IH]; intros start; cbn [fold_left]; [by left |].
  destruct (IH (if (start <? Index e ":" + 1)%Z
                then (Index e ":" + 1)%Z else start))
    as [Hsame | (entry & Hin & Hmax)].
  - rewrite Hsame. destruct (Z.ltb_spec start (Index e ":" + 1)).
    + right. exists e. split; [by left | done].
    + by left.
  - right. exists entry. split; [by right | done].
Qed.

Lemma colonColumn_attained (ctx : list string) :
  colonColumn ctx = 0%Z
  ∨ ∃ entry, entry ∈ ctx ∧ colonColumn ctx = (Index entry ":" + 1)%Z.
Proof. apply (colonColumn_attained_from ctx 0). Qed.

(** The context is printed with its colons in one column.  For every
    entry the padding is at least two spaces, so [strings.Repeat] is
    never given a negative count.  The first colon of every padded
    entry that has one stands at the same offset, [max + 3], where
    [max] is the loop's: one more than the colon index of the entry
    whose first colon is furthest in; that is, at that widest colon
    index plus four. *)
Theorem paddedEntry_aligns (ctx : list string) (entry : string) :
  entry ∈ ctx →
  let max := colonColumn ctx in
  let padding := (max - Index entry ":" + 1)%Z in
  (2 ≤ padding)%Z
  ∧ paddedEntry max entry
    = Some ("  " +:+ copies " " (Z.to_nat padding) +:+ entry)
  ∧ ((0 ≤ Index entry ":")%Z →
     ∀ line, paddedEntry max entry = Some line →
             Index line ":" = (max + 3)%Z)
  ∧ ((0 ≤ Index entry ":")%Z →
     ∃ widest,
       widest ∈ ctx
       ∧ (∀ e, e ∈ ctx → (Index e ":" ≤ Index widest ":")%Z)
       ∧ max = (Index widest ":" + 1)%Z
       ∧ ∀ line, paddedEntry max entry = Some line →
                 Index line ":" = (Index widest ":" + 4)%Z).
Proof.
  intros Hin max padding.
  destruct (colonColumn_bounds ctx) as [_ Hall].
  pose proof (Hall entry Hin) as Hentry.
  assert (2 ≤ padding)%Z as Hpad by (unfold padding, max; lia).
  assert (paddedEntry max entry
          = Some ("  " +:+ copies " " (Z.to_nat padding) +:+ entry)) as Hline.
  { unfold paddedEntry, Repeat. fold padding.
    zcases; [lia | done]. }
  assert ((0 ≤ Index entry ":")%Z →
          ∀ line, paddedEntry max entry = Some line →
                  Index line ":" = (max + 3)%Z) as Hcolumn.
  { intros Hcolon line Hsome. rewrite Hline in Hsome. injection Hsome as <-.
    change ("  " +:+ copies " " (Z.to_nat padding) +:+ entry)
      with (copies " " 2 +:+ (copies " " (Z.to_nat padding) +:+ entry)).
    rewrite Index_colon_after_spaces;
      rewrite Index_colon_after_spaces; try done; unfold padding in *; lia. }
  split; [done |]. split; [done |]. split; [done |].
  intros Hcolon.
  destruct (colonColumn_attained ctx) as [Hzero | (widest & Hwidest & Hmax)].
  { fold max in Hzero. unfold max in *. lia. }
  exists widest. split; [done |]. split; [| split; [done |]].
  - intros e He. specialize (Hall e He). lia.
  - intros line Hsome. rewrite (Hcolumn Hcolon line Hsome). unfold max. lia.
Qed.

Lemma contextLines_is_Some (max : Z) (ctx : list string) :
  (∀ entry, entry ∈ ctx → (Index entry ":" + 1 ≤ max)%Z) →
  is_Some (contextLines max ctx).
Proof.
  induction ctx as [| e ctx IH]; intros Hall; simpl; [done |].
  unfold paddedEntry, Repeat.
  assert (Index e ":" + 1 ≤ max)%Z as He by (apply Hall; by left).
  zcases; [lia |]. simpl.
  destruct IH as [more ->]; [| done].
  intros entry Hin. apply Hall. by right.
Qed.

Lemma contextLines_marked (max : Z) (ctx : list string) ws :
  contextLines max ctx = Some ws → Forall marked ws.
Proof.
  revert ws. induction ctx as [| e ctx IH]; intros ws; simpl.
  - intros [= <-]. constructor.
  - destruct (paddedEntry max e) as [line |]; [| done]. simpl.
    destruct (contextLines max ctx) as [more |]; [| done]. simpl.
    intros [= <-]. apply Forall_app. split; [apply errorLines_marked | by apply IH].
Qed.

Lemma Repeat_of_nat s n : Repeat s (Z.of_nat n) = Some (copies s n).
Proof.
  unfold Repeat. zcases; [lia |]. by rewrite Nat2Z.id.
Qed.

Lemma extractItem_not_found (ctx : list string) (key : string) :
  (extractItem ctx key).2 = false → (extractItem ctx key).1.1 = ctx.
Proof.
  induction ctx as [| v rest IH]; simpl; [done |].
  destruct (HasPrefix v key); [done |].
  destruct (extractItem rest key) as [[outCtx item] found].
  by destruct found.
Qed.

Lemma mapM_Some {A B : Type} (f : A → option B) (g : A → B) (l : list A) :
  (∀ x, f x = Some (g x)) → mapM f l = Some (g <$> l).
Proof.
  intros Hf. induction l as [| x l IH]; [done |].
  cbn [mapM]. rewrite Hf, IH. done.
Qed.

(** What [promote] always does: it returns, it writes in the manner of
    the error style, and it takes at most one entry out of the
    context. *)
Lemma promote_returns (ctx : list string) (key : string) :
  ∃ ctx' ws,
    promote ctx key = Some (ctx', ws) ∧ Forall marked ws
    ∧ ctx' = (extractItem ctx key).1.1.
Proof.
  unfold Terminal.promote.
  pose proof (extractItem_not_found ctx key) as Hextract.
  destruct (extractItem ctx key) as [[oc item] found]. destruct found.
  - destruct (decide (key = EmptyString)); [by eexists _, _ |].
    destruct (Cut item ": ") as [[key' rest] cut]. destruct cut; simpl.
    + destruct (Split (WrapString rest _) newline) as [| l more];
        [by eexists _, _ |].
      rewrite (mapM_Some _
                 (fun l0 => Error ("  " +:+ copies " " (String.length key')
                                        +:+ "  " +:+ l0)))
        by (intros l0; by rewrite Repeat_of_nat).
      simpl. eexists _, _. split; [done |]. split; [| done].
      apply Forall_app. split; [apply errorLines_marked |].
      apply Forall_concat, Forall_fmap, Forall_true.
      intros l0. apply errorLines_marked.
    + eexists _, _. split; [done |]. split; [| done].
      apply Forall_forall. intros w Hw.
      apply list_elem_of_bind in Hw as (l & Hw & _).
      pose proof (errorLines_marked (interpret ("  " +:+ l))) as Hmarked.
      rewrite Forall_forall in Hmarked. by apply Hmarked.
  - simpl in Hextract. rewrite Hextract by done. by eexists _, _.
Qed.

(** [ErrorWithContext] always returns: no call of [strings.Repeat] in
    it can panic.  All it writes is whole lines that open with the
    error mark or with two spaces. *)
Theorem ErrorWithContext_returns (err : error) (sub : string)
    (ctx : list string) :
  ∃ ws, ErrorWithContext err sub ctx = Some ws ∧ Forall marked ws.
Proof.
  unfold Terminal.ErrorWithContext.
  destruct (promote_returns ctx UIContextErrorDetail)
    as (ctx1 & detail & -> & Hdetail & _). simpl.
  destruct (promote_returns ctx1 UIContextErrorSuggestion)
    as (ctx2 & suggestion & -> & Hsuggestion & _). simpl.
  destruct (contextLines_is_Some (colonColumn ctx2) ctx2) as [entries Hentries].
  { apply colonColumn_bounds. }
  rewrite Hentries. simpl. eexists. split; [done |].
  repeat (apply Forall_app; split); try done; try apply errorLines_marked.
  by apply (contextLines_marked (colonColumn ctx2) ctx2).
Qed.

Lemma extractItem_none (ctx : list string) (key : string) :
  Forall (fun v => HasPrefix v key = false) ctx →
  extractItem ctx key = (ctx, EmptyString, false).
Proof.
  induction 1 as [| v rest Hv _ IH]; [done |].
  simpl. by rewrite Hv, IH.
Qed.

Lemma contextLines_padded (max : Z) (ctx : list string) :
  (∀ entry, entry ∈ ctx → (Index entry ":" + 1 ≤ max)%Z) →
  contextLines max ctx
  = Some (ctx ≫= fun entry =>
            Error ("  " +:+ copies " " (Z.to_nat (max - Index entry ":" + 1))
                        +:+ entry)).
Proof.
  induction ctx as [| e ctx IH]; intros Hall; [done |].
  cbn [Terminal.contextLines]. unfold paddedEntry, Repeat.
  assert (Index e ":" + 1 ≤ max)%Z as He by (apply Hall; by left).
  zcases; [lia |]. simpl. rewrite IH; [done |].
  intros entry Hin. apply Hall. by right.
Qed.

(** With nothing to promote, an error report is its title, the error,
    the line ["  Context:"], and then every context entry once, in the
    order given, each padded to the common colon column. *)
Theorem ErrorWithContext_plain_context (err : error) (sub : string)
    (ctx : list string) :
  Forall (fun v => HasPrefix v UIContextErrorDetail = false) ctx →
  Forall (fun v => HasPrefix v UIContextErrorSuggestion = false) ctx →
  ErrorWithContext err sub ctx
  = Some (Error (Title sub) ++ Error ("  Error: " +:+ err)
            ++ Error "  Context:"
            ++ (ctx ≫= fun entry =>
                  Error ("  " +:+ copies " "
                                    (Z.to_nat (colonColumn ctx
                                               - Index entry ":" + 1))
                              +:+ entry))).
Proof.
  intros Hdetail Hsuggestion.
  unfold Terminal.ErrorWithContext, Terminal.promote.
  rewrite (extractItem_none ctx UIContextErrorDetail Hdetail). simpl.
  rewrite (extractItem_none ctx UIContextErrorSuggestion Hsuggestion). simpl.
  rewrite contextLines_padded by apply colonColumn_bounds. simpl.
  by rewrite <- !app_assoc.
Qed.

End ContextFacts.

(** The report of a failed load with the context of a pack. *)
Lemma ErrorWithContext_plain_context_witness :
  Terminal.ErrorWithContext id id id id id id (fun s _ => s)
    "Details: " "Suggestion: " "no such directory" "Failed To Load Pack"
    ["Pack Name: nginx"; "Registry: default"]
  = Some [Terminal.Fprintln "! Failed To Load Pack";
          Terminal.Fprintln "!   Error: no such directory";
          Terminal.Fprintln "!   Context:";
          Terminal.Fprintln "!     Pack Name: nginx";
          Terminal.Fprintln "!      Registry: default"].
Proof.
  apply (ErrorWithContext_plain_context id id id id id id (fun s _ => s)
           "Details: " "Suggestion: " "no such directory" "Failed To Load Pack"
           ["Pack Name: nginx"; "Registry: default"]);
    repeat constructor.
Defined.

(** Three context entries: the widest colon index is 9, that of
    ["Pack Name: nginx"], and both colons are printed at 13. *)
Lemma paddedEntry_aligns_witness :
  let ctx := ["Pack Name: nginx"; "Registry: default"; "no colon here"] in
  gostrings.Index "Pack Name: nginx" ":" = 9%Z
  ∧ gostrings.Index "Registry: default" ":" = 8%Z
  ∧ Terminal.paddedEntry (Terminal.colonColumn ctx) "Registry: default"
    = Some "     Registry: default"
  ∧ gostrings.Index "     Registry: default" ":" = 13%Z
  ∧ Terminal.paddedEntry (Terminal.colonColumn ctx) "Pack Name: nginx"
    = Some "    Pack Name: nginx"
  ∧ gostrings.Index "    Pack Name: nginx" ":" = 13%Z.
Proof.
  intros ctx.
  destruct (paddedEntry_aligns ctx "Registry: default")
    as (_ & Hline & Hcolon & _).
  { right. left. }
  destruct (paddedEntry_aligns ctx "Pack Name: nginx")
    as (_ & Hline' & Hcolon' & _).
  { left. }
  split; [reflexivity |]. split; [reflexivity |].
  split; [exact Hline |]. split; [apply Hcolon; [done | exact Hline] |].
  split; [exact Hline' |]. apply Hcolon'; [done | exact Hline'].
Defined.

Section NamedValuesFacts.

Import gostrings Terminal.

Variable Float : Type.
Variable formatFloat : Float → string.

Lemma fold_namedValueLine (rows : list (NamedValue Float))
    (written : list string) :
  fold_left
    (fun written row =>
       match namedValueLine Float formatFloat row with
       | Some line => written ++ [line]
       | None => written
       end)
    rows written
  = written ++ omap (namedValueLine Float formatFloat) rows.
Proof.
  revert written. induction rows as [| row rows IH]; intros written; simpl.
  - by rewrite app_nil_r.
  - rewrite IH. destruct (namedValueLine Float formatFloat row); [| done].
    by rewrite <- app_assoc.
Qed.

(** [NamedValues] leaves out the rows whose value is the empty string
    and no other: every other row gives one line, in the order of the
    rows. *)
Theorem namedValueLines_skips_empty_strings (rows : list (NamedValue Float)) :
  namedValueLines Float formatFloat rows
  = omap (namedValueLine Float formatFloat) rows
  ∧ ∀ row, namedValueLine Float formatFloat row = None
           ↔ NVValue row = StringValue EmptyString.
Proof.
  split.
  - unfold namedValueLines. by rewrite fold_namedValueLine.
  - intros row. unfold namedValueLine.
    destruct (NVValue row) as [n | x | b | v | shown]; try done.
    destruct (decide (v = EmptyString)) as [-> | Hv]; [done |].
    split; [done |]. intros [= ->]. done.
Qed.

End NamedValuesFacts.

Section StepGroupFacts.

Import Terminal.

Implicit Types (g : StepGroup) (f : Step) (c : Call) (cs : list Call).

Lemma pending_insert_done g i f :
  steps g !! i = Some f → inGroup f = true → done f = false →
  length (filter (fun f => inGroup f = true ∧ done f = false) (steps g))
  = S (length (filter (fun f => inGroup f = true ∧ done f = false)
                 (<[i := {| inGroup := inGroup f; done := true |}]> (steps g)))).
Proof.
  intros Hi Hin Hdone.
  pose proof (lookup_lt_Some _ _ _ Hi) as Hlt.
  rewrite insert_take_drop by done.
  rewrite <- (take_drop_middle (steps g) i f Hi) at 1.
  rewrite !filter_app, !filter_cons, !length_app.
  rewrite decide_True by done. rewrite decide_False by (simpl; intros [_ ?]; done).
  simpl. lia.
Qed.

Lemma call_counted g c g' : counted g → call g c = inl g' → counted g'.
Proof.
  unfold counted, pending. intros Hg.
  destruct c as [text | i text | i status | i | i |]; simpl.
  - intros [= <-]. simpl. rewrite filter_app, length_app, filter_cons, filter_nil.
    destruct (closed g); simpl; lia.
  - destruct (steps g !! i); [| done]. by intros [= <-].
  - destruct (steps g !! i); [| done]. by intros [= <-].
  - unfold Done. destruct (steps g !! i) as [f |] eqn:Hi; [| done].
    destruct (done f) eqn:Hdone; [by intros [= <-] |].
    destruct (inGroup f) eqn:Hin; [| done]. simpl.
    destruct (counter g - 1 <? 0)%Z; [done |]. intros [= <-]. simpl.
    rewrite (pending_insert_done g i f) in Hg by done. rewrite Hin in Hg. lia.
  - unfold Abort, Done. destruct (steps g !! i) as [f |] eqn:Hi; [| done].
    destruct (done f) eqn:Hdone; [by intros [= <-] |].
    destruct (inGroup f) eqn:Hin; [| done]. simpl.
    destruct (counter g - 1 <? 0)%Z; [done |]. intros [= <-]. simpl.
    rewrite (pending_insert_done g i f) in Hg by done. rewrite Hin in Hg. lia.
  - by intros [= <-].
Qed.

Lemma call_never_negative g c : counted g → call g c ≠ inr NegativeCounter.
Proof.
  unfold counted, pending. intros Hg.
  destruct c as [text | i text | i status | i | i |]; simpl; try done.
  - by destruct (steps g !! i).
  - by destruct (steps g !! i).
  - unfold Done. destruct (steps g !! i) as [f |] eqn:Hi; [| done].
    destruct (done f) eqn:Hdone; [done |].
    destruct (inGroup f) eqn:Hin; [| done]. simpl.
    rewrite (pending_insert_done g i f) in Hg by done.
    destruct (Z.ltb_spec (counter g - 1) 0); [lia | done].
  - unfold Abort, Done. destruct (steps g !! i) as [f |] eqn:Hi; [| done].
    destruct (done f) eqn:Hdone; [done |].
    destruct (inGroup f) eqn:Hin; [| done]. simpl.
    rewrite (pending_insert_done g i f) in Hg by done.
    destruct (Z.ltb_spec (counter g - 1) 0); [lia | done].
Qed.

Lemma calls_counted g cs :
  counted g →
  match calls g cs with
  | inl g' => counted g'
  | inr fault => fault ≠ NegativeCounter
  end.
Proof.
  revert g. induction cs as [| c cs IH]; intros g Hg; simpl; [done |].
  destruct (call g c) as [g' | fault] eqn:Hcall.
  - apply IH. by apply (call_counted g c).
  - intros ->. by apply (call_never_negative g c).
Qed.

Lemma newStepGroup_counted : counted newStepGroup.
Proof. done. Qed.

(** Whatever calls are made on a new step group and its steps, the
    counter of its wait group is the number of steps added before
    [Wait] and not yet done, and no call drives it below zero. *)
Theorem stepGroup_counter (cs : list Call) :
  match calls newStepGroup cs with
  | inl g => counter g = Z.of_nat (length (pending g))
  | inr fault => fault ≠ NegativeCounter
  end.
Proof. apply (calls_counted newStepGroup cs newStepGroup_counted). Qed.

(** After any calls that went through, [Wait] is released exactly when
    every step added before it was called is done. *)
Theorem stepGroup_released (cs : list Call) (g : StepGroup) :
  calls newStepGroup cs = inl g →
  released g ↔ Forall (fun f => inGroup f = true → done f = true) (steps g).
Proof.
  intros Hcalls.
  pose proof (calls_counted newStepGroup cs newStepGroup_counted) as Hg.
  rewrite Hcalls in Hg. unfold released, counted, pending in *. rewrite Hg.
  split.
  - intros Hzero. apply Forall_forall. intros f Hf Hin.
    destruct (done f) eqn:Hdone; [done |].
    assert (f ∈ filter (fun f => inGroup f = true ∧ done f = false) (steps g))
      as Hpending by (by apply list_elem_of_filter).
    destruct (filter _ (steps g)); [by apply elem_of_nil in Hpending |].
    simpl in Hzero. lia.
  - intros Hall.
    destruct (filter _ (steps g)) as [| f rest] eqn:Hfilter; [done |].
    assert (f ∈ filter (fun f => inGroup f = true ∧ done f = false) (steps g))
      as Hpending by (rewrite Hfilter; by left).
    apply list_elem_of_filter in Hpending as [[Hin Hdone] Hf].
    rewrite Forall_forall in Hall. specialize (Hall f Hf Hin). congruence.
Qed.

(** [Done] twice is [Done] once: a second call changes nothing. *)
Theorem Done_twice (g g' : StepGroup) (i : nat) :
  Done g i = inl g' → Done g' i = inl g' ∧ Abort g' i = inl g'.
Proof.
  unfold Abort, Done. destruct (steps g !! i) as [f |] eqn:Hi; [| done].
  destruct (done f) eqn:Hdone.
  - intros [= <-]. by rewrite Hi, Hdone.
  - destruct (inGroup f); [| done]. simpl.
    destruct (counter g - 1 <? 0)%Z; [done |]. intros [= <-]. simpl.
    rewrite list_lookup_insert_eq by (by apply lookup_lt_Some in Hi). done.
Qed.

(** A step added once [Wait] was called has no wait group, and its
    [Done] stops on the nil pointer.  A step added before, on a group
    whose counter is not negative, is done without fault, and the
    counter is back where it was. *)
Theorem Done_of_added_step (g : StepGroup) (text : string) :
  (closed g = true →
   Done (Add g text) (length (steps g)) = inr NilWaitGroup)
  ∧ (closed g = false → (0 ≤ counter g)%Z →
     ∃ g', Done (Add g text) (length (steps g)) = inl g'
           ∧ counter g' = counter g
           ∧ steps g' = steps g ++ [{| inGroup := true; done := true |}]).
Proof.
  split.
  - intros Hclosed. unfold Done, Add. simpl.
    rewrite lookup_app_r by done. rewrite Nat.sub_diag. simpl.
    by rewrite Hclosed.
  - intros Hopen Hcounter. unfold Done, Add. simpl.
    rewrite lookup_app_r by done. rewrite Nat.sub_diag. simpl.
    rewrite Hopen. simpl.
    destruct (Z.ltb_spec (counter g + 1 - 1) 0); [lia |].
    eexists. split; [done |]. simpl. split; [lia |].
    rewrite insert_app_r_alt by done. by rewrite Nat.sub_diag.
Qed.

End StepGroupFacts.

(* ================================================================= *)
(** * More on the status command *)

Section StatusTables.

Import StatusCommand.

Variable quote : string → string.
Variable RedString : string → string.
Variable helpUsageMessage : string.
Variable ErrParsingArgsOrFlags : string.
Variable errorContextFor : string → list string.

Local Abbreviation Run :=
  (Run quote RedString helpUsageMessage ErrParsingArgsOrFlags errorContextFor).

(** Rows appended one at a time by a loop. *)
Lemma fold_append_rows {A : Type} (row : A → list string) (l : list A)
    (tbl : Table) :
  fold_left
    (fun tbl x => {| Headers := Headers tbl; Rows := Rows tbl ++ [row x] |})
    l tbl
  = {| Headers := Headers tbl; Rows := Rows tbl ++ (row <$> l) |}.
Proof.
  revert tbl. induction l as [| x l IH]; intros tbl; simpl.
  - rewrite app_nil_r. by destruct tbl.
  - rewrite IH. simpl. by rewrite <- app_assoc.
Qed.

(** The table of a pack's jobs has one row for each job, in the order
    of the jobs, made of the job's five fields, under five headers:
    every row is as wide as the header. *)
Theorem formatDeployedPackJobs_rows (packJobs : list JobStatusInfo) :
  let tbl := formatDeployedPackJobs packJobs in
  Headers tbl = ["Pack Name"; "Registry Name"; "Deployment Name";
                 "Job Name"; "Status"]
  ∧ Rows tbl
    = (fun jobInfo => [packName jobInfo; registryName jobInfo;
                       jobDeploymentName jobInfo; jobID jobInfo;
                       status jobInfo]) <$> packJobs
  ∧ Forall (fun row => length row = length (Headers tbl)) (Rows tbl).
Proof.
  unfold formatDeployedPackJobs.
  rewrite (fold_append_rows
             (fun jobInfo => [packName jobInfo; registryName jobInfo;
                              jobDeploymentName jobInfo; jobID jobInfo;
                              status jobInfo])).
  simpl. repeat split. apply Forall_fmap, Forall_true. done.
Qed.

(** The table of job errors has one row for each error, in order: the
    job and its error in red. *)
Theorem formatDeployedPackErrs_rows (packErrs : list JobStatusError) :
  let tbl := formatDeployedPackErrs RedString packErrs in
  Headers tbl = ["Job Name"; "Error"]
  ∧ Rows tbl
    = (fun jobInfo => [errJobID jobInfo; RedString (jobError jobInfo)])
        <$> packErrs
  ∧ Forall (fun row => length row = length (Headers tbl)) (Rows tbl).
Proof.
  unfold formatDeployedPackErrs.
  rewrite (fold_append_rows
             (fun jobInfo => [errJobID jobInfo; RedString (jobError jobInfo)])).
  simpl. repeat split. apply Forall_fmap, Forall_true. done.
Qed.

Lemma fold_formatDeployedPacks (packRegistryMap : list (string * list string))
    (tbl : Table) :
  fold_left
    (fun tbl entry =>
       fold_left
         (fun tbl registryName =>
            {| Headers := Headers tbl;
               Rows := Rows tbl ++ [[entry.1; registryName]] |})
         entry.2 tbl)
    packRegistryMap tbl
  = {| Headers := Headers tbl;
       Rows := Rows tbl ++
         (packRegistryMap ≫= fun entry =>
            (fun registryName => [entry.1; registryName]) <$> entry.2) |}.
Proof.
  revert tbl. induction packRegistryMap as [| entry rest IH]; intros tbl.
  - simpl. rewrite app_nil_r. by destruct tbl.
  - cbn [fold_left]. rewrite IH.
    rewrite (fold_append_rows (fun registryName => [entry.1; registryName])).
    simpl. by rewrite <- app_assoc.
Qed.

(** The table of deployed packs has one row for each pack and registry
    it is deployed from, in the order visited; a pack with no registry
    has no row. *)
Theorem formatDeployedPacks_rows
    (packRegistryMap : list (string * list string)) :
  let tbl := formatDeployedPacks packRegistryMap in
  Headers tbl = ["Pack Name"; "Registry Name"]
  ∧ Rows tbl
    = (packRegistryMap ≫= fun entry =>
         (fun registryName => [entry.1; registryName]) <$> entry.2)
  ∧ length (Rows tbl) = sum_list ((fun entry => length entry.2) <$> packRegistryMap)
  ∧ Forall (fun row => length row = length (Headers tbl)) (Rows tbl).
Proof.
  unfold formatDeployedPacks. rewrite fold_formatDeployedPacks. simpl.
  repeat split.
  - induction packRegistryMap as [| entry rest IH]; [done |].
    rewrite bind_cons, length_app, length_fmap, fmap_cons. simpl. by rewrite IH.
  - apply Forall_forall. intros row Hrow.
    apply list_elem_of_bind in Hrow as (entry & Hrow & _).
    apply list_elem_of_fmap in Hrow as (registryName & -> & _). done.
Qed.

Lemma formatDeployedPackJobs_Headers packJobs :
  Headers (formatDeployedPackJobs packJobs)
  = ["Pack Name"; "Registry Name"; "Deployment Name"; "Job Name"; "Status"].
Proof.
  unfold formatDeployedPackJobs.
  by rewrite (fold_append_rows
                (fun jobInfo => [packName jobInfo; registryName jobInfo;
                                 jobDeploymentName jobInfo; jobID jobInfo;
                                 status jobInfo])).
Qed.

(** When the job query succeeds the command succeeds, whatever the
    job errors.  The errors are reported, under a bold warning, exactly
    when at least one job was found along with them; with no job found
    they are not shown.  With a job found the first thing shown is the
    table of jobs. *)
Theorem job_errors_shown (packConfig : PackConfig) (c : baseCommand)
    (packJobs : list JobStatusInfo) (jobErrs : list JobStatusError)
    (errorContext : list string) :
  let out := renderDeployedPackJobs quote RedString packConfig c
               (packJobs, jobErrs, None) errorContext in
  out.1 = 0%Z
  ∧ (WarningBold "error retrieving job status for the following jobs:" ∈ out.2
     ↔ packJobs ≠ [] ∧ jobErrs ≠ [])
  ∧ (ShowTable (formatDeployedPackErrs RedString jobErrs) ∈ out.2
     ↔ packJobs ≠ [] ∧ jobErrs ≠ [])
  ∧ (packJobs ≠ [] →
     head out.2 = Some (ShowTable (formatDeployedPackJobs packJobs))).
Proof.
  unfold renderDeployedPackJobs.
  destruct packJobs as [| job packJobs].
  - simpl. split; [done |].
    split; [| split; [| done]]; (split; [| intros [? _]; done]);
      intros Hin; apply list_elem_of_singleton in Hin; discriminate.
  - rewrite decide_False by done.
    destruct jobErrs as [| jobErr jobErrs].
    + rewrite decide_False by (simpl; lia). split; [done |].
      split; [| split; [| done]]; (split; [| intros [_ ?]; done]);
        intros Hin; apply list_elem_of_singleton in Hin; [discriminate |].
      injection Hin as Hin.
      apply (f_equal Headers) in Hin.
      rewrite formatDeployedPackJobs_Headers in Hin. discriminate.
    + rewrite decide_True by (simpl; lia). split; [done |].
      split; [| split; [| done]]; (split; [done |]); intros _.
      * right. left.
      * right. right. left.
Qed.

(** What [Run] takes the pack name to be. *)
Lemma Run_outcome (flags : PackConfig) (inv : Invocation) (c : baseCommand) :
  initResult inv = inl c → clientResult inv = None →
  let name := match args c with a :: _ => a | [] => PackName flags end in
  let packConfig :=
    match args c with
    | a :: _ => {| PackName := a; Registry := Registry flags; Ref := Ref flags |}
    | [] => flags
    end in
  Run flags inv
  = if decide (name = EmptyString)
    then renderAllDeployedPacks (packsResult inv) (errorContextFor name)
    else renderDeployedPackJobs quote RedString packConfig c (jobsResult inv)
           (errorContextFor name).
Proof.
  intros Hinit Hclient. unfold StatusCommand.Run. rewrite Hinit, Hclient.
  by destruct (args c).
Qed.

(** [status] exits with 0 or 1, and with 1 exactly when [Init] failed,
    or the client could not be made, or the one query it makes failed:
    of the packs when no pack is named, of the pack's jobs otherwise.
    An empty answer is no failure.  Every failure is shown: the first
    UI call is then [ErrorWithContext]. *)
Theorem status_exit_code (flags : PackConfig) (inv : Invocation) :
  let out := Run flags inv in
  let failed :=
    match initResult inv with
    | inr _ => True
    | inl c =>
        clientResult inv ≠ None
        ∨ (let name := match args c with a :: _ => a | [] => PackName flags end in
           if decide (name = EmptyString)
           then (packsResult inv).2 ≠ None
           else (jobsResult inv).2 ≠ None)
    end in
  (out.1 = 0%Z ∨ out.1 = 1%Z)
  ∧ (out.1 = 1%Z ↔ failed)
  ∧ (out.1 = 1%Z →
     ∃ err sub ctx rest, out.2 = ErrorWithContext err sub ctx :: rest).
Proof.
  cbv zeta. destruct (initResult inv) as [c | err] eqn:Hinit.
  - destruct (clientResult inv) as [err |] eqn:Hclient.
    + unfold StatusCommand.Run. rewrite Hinit, Hclient. simpl.
      split; [by right |]. split; [split; [by left | done] |].
      intros _. by eexists _, _, _, _.
    + rewrite (Run_outcome flags inv c Hinit Hclient). cbv zeta.
      destruct (decide (_ = EmptyString)) as [Hname | Hname].
      * unfold renderAllDeployedPacks.
        destruct (packsResult inv) as [packs [err |]]; simpl.
        -- split; [by right |]. split; [split; [by right | done] |].
           intros _. by eexists _, _, _, _.
        -- destruct (decide (length packs = 0)); simpl;
             (split; [by left |]); (split; [| done]);
             (split; [done | intros [? | ?]; done]).
      * unfold renderDeployedPackJobs.
        destruct (jobsResult inv) as [[packJobs jobErrs] [err |]]; simpl.
        -- split; [by right |]. split; [split; [by right | done] |].
           intros _. by eexists _, _, _, _.
        -- destruct (decide (length packJobs = 0)); simpl;
             (split; [by left |]); (split; [| done]);
             (split; [done | intros [? | ?]; done]).
  - unfold StatusCommand.Run. rewrite Hinit. simpl.
    split; [by right |]. split; [done |]. intros _. by eexists _, _, _, _.
Qed.

(** [status] makes one query only.  With a pack named, the answer about
    all packs does not matter; with none named, the answer about jobs
    does not. *)
Theorem status_one_query (flags : PackConfig) (inv inv' : Invocation)
    (c : baseCommand) :
  initResult inv = inl c → initResult inv' = inl c →
  clientResult inv = clientResult inv' →
  let name := match args c with a :: _ => a | [] => PackName flags end in
  (if decide (name = EmptyString)
   then packsResult inv = packsResult inv'
   else jobsResult inv = jobsResult inv') →
  Run flags inv = Run flags inv'.
Proof.
  intros Hinit Hinit' Hclient name Hquery.
  destruct (clientResult inv) as [err |] eqn:Hc.
  - unfold StatusCommand.Run. by rewrite Hinit, Hinit', Hc, <- Hclient.
  - rewrite (Run_outcome flags inv c Hinit Hc).
    rewrite (Run_outcome flags inv' c Hinit' (eq_sym Hclient)).
    cbv zeta. fold name. fold name in Hquery.
    destruct (decide (name = EmptyString)); by rewrite Hquery.
Qed.

End StatusTables.

(* ================================================================= *)
(** * More on the info command *)

Section InfoRun.

Import Diagnostics InfoCommand.

Variable quote : string → string.
Variable FriendlyName : cty.Typ → string.
Variable helpUsageMessage : string.
Variable ErrParsingArgsOrFlags : string.
Variable diagsError : Diagnostics.t → string.
Variables VarFiles Parser ParsedVariables : Type.
Variable packRootVariableFiles : Pack → VarFiles.
Variable NewParser : ParserConfig VarFiles → Parser + error.
Variable Parse : Parser → ParsedVariables * Diagnostics.t.
Variable GetVars : ParsedVariables → list (string * list VariableSpec).

Local Abbreviation Run :=
  (Run quote FriendlyName helpUsageMessage ErrParsingArgsOrFlags diagsError
     VarFiles Parser ParsedVariables packRootVariableFiles NewParser Parse
     GetVars).
Local Abbreviation report :=
  (report quote FriendlyName diagsError ParsedVariables GetVars).
Local Abbreviation variableRows := (variableRows quote FriendlyName).
Local Abbreviation variableRow := (variableRow quote FriendlyName).
Local Abbreviation packRows := (packRows quote FriendlyName).

(** How far an invocation gets. *)
Lemma Run_stages (ignoreMissingVars : bool) (inv : Invocation) :
  (∃ err, initResult inv = Some err
          ∧ Run ignoreMissingVars inv
            = (1%Z, [ErrorWithContext err ErrParsingArgsOrFlags [];
                     Info helpUsageMessage]))
  ∨ (initResult inv = None ∧ is_Some (verifyResult inv)
     ∧ Run ignoreMissingVars inv = (1%Z, []))
  ∨ (∃ err, initResult inv = None ∧ verifyResult inv = None
            ∧ loadResult inv = inr err
            ∧ Run ignoreMissingVars inv
              = (1%Z, [ErrorWithContext err
                         "failed to load pack from local directory"
                         (errorContext inv)]))
  ∨ (∃ p err, initResult inv = None ∧ verifyResult inv = None
              ∧ loadResult inv = inl p
              ∧ NewParser {| ParentPack := p;
                             RootVariableFiles := packRootVariableFiles p;
                             IgnoreMissingVars := ignoreMissingVars |}
                = inr err
              ∧ Run ignoreMissingVars inv = (1%Z, []))
  ∨ (∃ p variableParser,
        initResult inv = None ∧ verifyResult inv = None
        ∧ loadResult inv = inl p
        ∧ NewParser {| ParentPack := p;
                       RootVariableFiles := packRootVariableFiles p;
                       IgnoreMissingVars := ignoreMissingVars |}
          = inl variableParser
        ∧ Run ignoreMissingVars inv = report p (Parse variableParser)).
Proof.
  unfold InfoCommand.Run.
  destruct (initResult inv) as [err |]; [left; by eexists |].
  destruct (verifyResult inv) as [err |]; [right; left; by eauto |].
  destruct (loadResult inv) as [p | err];
    [| right; right; left; by eexists].
  destruct (NewParser _) as [variableParser | err] eqn:Hparser.
  - right. right. right. right. by eexists _, _.
  - right. right. right. left. by eexists _, _.
Qed.

Lemma report_cases (p : Pack) (parsed : ParsedVariables * Diagnostics.t) :
  (HasErrors parsed.2 = true
   ∧ report p parsed = (1%Z, [Info (diagsError parsed.2)]))
  ∨ (HasErrors parsed.2 = false
     ∧ report p parsed
       = (0%Z, [RenderFrame (headerRows p ++ flat_map packRows (GetVars parsed.1))])).
Proof.
  rewrite report_exit. destruct (HasErrors parsed.2); [by left | by right].
Qed.

(** [info] exits with 0 or 1.  It exits with 0 exactly when every step
    went through and the diagnostics of [Parse] hold no error; and it
    renders the frame exactly then, as its only UI call: a failed
    [info] shows no part of the pack. *)
Theorem info_exit_code (ignoreMissingVars : bool) (inv : Invocation) :
  let out := Run ignoreMissingVars inv in
  (out.1 = 0%Z ∨ out.1 = 1%Z)
  ∧ (out.1 = 0%Z ↔
     initResult inv = None ∧ verifyResult inv = None
     ∧ ∃ p variableParser,
         loadResult inv = inl p
         ∧ NewParser {| ParentPack := p;
                        RootVariableFiles := packRootVariableFiles p;
                        IgnoreMissingVars := ignoreMissingVars |}
           = inl variableParser
         ∧ HasErrors (Parse variableParser).2 = false)
  ∧ (out.1 = 0%Z ↔ ∃ rows, out.2 = [RenderFrame rows])
  ∧ (∀ rows, RenderFrame rows ∈ out.2 → out.1 = 0%Z).
Proof.
  cbv zeta.
  destruct (Run_stages ignoreMissingVars inv)
    as [(err & Hinit & ->)
       | [(Hinit & [err Hverify] & ->)
         | [(err & Hinit & Hverify & Hload & ->)
           | [(p & err & Hinit & Hverify & Hload & Hparser & ->)
             | (p & variableParser & Hinit & Hverify & Hload & Hparser & ->)]]]];
    simpl.
  - split; [by right |]. split; [split; [done | intros [? _]; congruence] |].
    split; [split; [done | intros [? ?]; done] |].
    intros rows Hin. repeat (apply elem_of_cons in Hin as [? | Hin]; [done |]).
    by apply elem_of_nil in Hin.
  - split; [by right |].
    split; [split; [done | intros (_ & ? & _); congruence] |].
    split; [split; [done | intros [? ?]; done] |].
    intros rows Hin. by apply elem_of_nil in Hin.
  - split; [by right |].
    split; [split; [done | intros (_ & _ & ? & ? & ? & _); congruence] |].
    split; [split; [done | intros [? ?]; done] |].
    intros rows Hin. repeat (apply elem_of_cons in Hin as [? | Hin]; [done |]).
    by apply elem_of_nil in Hin.
  - split; [by right |].
    split; [split; [done | intros (_ & _ & ? & ? & ? & ? & _); congruence] |].
    split; [split; [done | intros [? ?]; done] |].
    intros rows Hin. by apply elem_of_nil in Hin.
  - destruct (report_cases p (Parse variableParser)) as [[Herr ->] | [Hok ->]];
      simpl.
    + split; [by right |].
      split; [split; [done |] |].
      { intros (_ & _ & p' & parser' & Hload' & Hparser' & Hok).
        rewrite Hload in Hload'. injection Hload' as <-.
        rewrite Hparser in Hparser'. injection Hparser' as <-. congruence. }
      split; [split; [done | intros [? ?]; done] |].
      intros rows Hin. repeat (apply elem_of_cons in Hin as [? | Hin]; [done |]).
      by apply elem_of_nil in Hin.
    + split; [by left |].
      split; [split; [| done] |].
      { intros _. repeat split; try done. by eexists _, _. }
      split; [split; [by eexists | done] |]. done.
Qed.

(** [info] says nothing at all in two cases, and only then: when
    [VerifyPackExists] fails, which shows the failure itself, and when
    the parser cannot be built, which nothing shows.  It then exits
    with 1. *)
Theorem info_silent_failures (ignoreMissingVars : bool) (inv : Invocation) :
  let out := Run ignoreMissingVars inv in
  out.2 = [] ↔
    out.1 = 1%Z ∧ initResult inv = None
    ∧ (is_Some (verifyResult inv)
       ∨ (verifyResult inv = None
          ∧ ∃ p err,
              loadResult inv = inl p
              ∧ NewParser {| ParentPack := p;
                             RootVariableFiles := packRootVariableFiles p;
                             IgnoreMissingVars := ignoreMissingVars |}
                = inr err)).
Proof.
  cbv zeta.
  destruct (Run_stages ignoreMissingVars inv)
    as [(err & Hinit & ->)
       | [(Hinit & Hverify & ->)
         | [(err & Hinit & Hverify & Hload & ->)
           | [(p & err & Hinit & Hverify & Hload & Hparser & ->)
             | (p & variableParser & Hinit & Hverify & Hload & Hparser & ->)]]]];
    simpl.
  - split; [done | intros (_ & ? & _); congruence].
  - split; [| done]. intros _. repeat split; try done. by left.
  - split; [done |].
    intros (_ & _ & [[? ?] | (_ & ? & ? & ? & _)]); congruence.
  - split; [| done]. intros _. repeat split; try done. right. eauto.
  - destruct (report_cases p (Parse variableParser)) as [[_ ->] | [_ ->]];
      simpl; (split; [done |]);
      intros (_ & _ & [[? ?] | (_ & p' & err & Hload' & Hparser')]);
      try congruence;
      rewrite Hload in Hload'; injection Hload' as <-; congruence.
Qed.

Lemma variableRows_length (variables : list VariableSpec) :
  length (variableRows variables) = length variables.
Proof.
  rewrite variableRows_split, length_app, !length_fmap.
  induction variables as [| v variables IH]; [done |].
  rewrite !filter_cons.
  destruct (decide (cty.IsNull (Default v) = true)) as [Hnull | Hnull].
  - rewrite decide_False by auto. simpl. lia.
  - rewrite decide_True by done. simpl. lia.
Qed.

Lemma packRows_length (entries : list (string * list VariableSpec)) :
  length (flat_map packRows entries)
  = sum_list ((fun entry => S (length entry.2)) <$> entries).
Proof.
  induction entries as [| [pName variables] entries IH]; [done |].
  cbn [flat_map]. rewrite length_app, IH, fmap_cons. cbn [sum_list_with].
  f_equal. unfold InfoCommand.packRows. simpl.
  by rewrite length_fmap, variableRows_length.
Qed.

Lemma variableRows_each_once (variables : list VariableSpec) :
  variableRows variables
  ≡ₚ (fun v =>
        tab +:+ "- " +:+ quote (Name v) +:+ " (" +:+ varType FriendlyName v
            +:+ ": "
            +:+ (if cty.IsNull (Default v) then "required" else "optional")
            +:+ ") - " +:+ Description v)
       <$> variables.
Proof.
  rewrite variableRows_split.
  rewrite <- (filter_app_complement
                (fun v => cty.IsNull (Default v) = true) variables) at 3.
  rewrite fmap_app. f_equiv.
  - apply reflexive_eq, Forall_fmap_ext, Forall_forall.
    intros v Hv. apply list_elem_of_filter in Hv as [Hnull _].
    unfold InfoCommand.variableRow. by rewrite Hnull.
  - apply reflexive_eq, Forall_fmap_ext, Forall_forall.
    intros v Hv. apply list_elem_of_filter in Hv as [Hnull _].
    unfold InfoCommand.variableRow.
    by destruct (cty.IsNull (Default v)).
Qed.

(** The frame loses no variable and repeats none.  When the parsed
    diagnostics hold no error, the frame rendered is the three rows of
    the pack's description followed by one section for each pack parsed,
    in the order visited; a section is the pack's title row and then,
    in some order, exactly one row for each of the pack's variables,
    reading [<tab>- <name quoted> (<type>: required|optional) -
    <description>].  Its length is 3 plus, for each pack, one plus the
    number of its variables. *)
Theorem report_frame_sections (p : Pack)
    (parsed : ParsedVariables * Diagnostics.t) :
  HasErrors parsed.2 = false →
  ∃ sections : list (list (list Cell)),
    report p parsed
    = (0%Z,
       [RenderFrame
          ([ [BoldText "Pack Name          ";
              Text (MetaPackName (PackMetadata p))];
             [BoldText "Description        ";
              Text (MetaPackDescription (PackMetadata p))];
             [BoldText "Application URL    ";
              Text (MetaAppURL (PackMetadata p))] ]
           ++ concat sections)])
    ∧ Forall2
        (fun entry section =>
           ∃ body,
             section
             = [BoldText ("Pack " +:+ quote entry.1 +:+ " Variables:")] :: body
             ∧ body
               ≡ₚ (fun v =>
                     [Text (tab +:+ "- " +:+ quote (Name v) +:+ " ("
                              +:+ varType FriendlyName v +:+ ": "
                              +:+ (if cty.IsNull (Default v)
                                   then "required" else "optional")
                              +:+ ") - " +:+ Description v)])
                    <$> entry.2)
        (GetVars parsed.1) sections
    ∧ length (concat sections)
      = sum_list ((fun entry => S (length entry.2)) <$> GetVars parsed.1).
Proof.
  intros Hok.
  destruct (report_cases p parsed) as [[Herr _] | [_ ->]]; [congruence |].
  exists (packRows <$> GetVars parsed.1).
  split; [| split].
  - unfold headerRows. by rewrite flat_map_concat_map.
  - apply Forall2_fmap_r, Forall_Forall2_diag, Forall_forall.
    intros [pName variables] _. unfold InfoCommand.packRows.
    eexists. split; [done |]. simpl.
    rewrite variableRows_each_once. by rewrite <- list_fmap_compose.
  - rewrite <- flat_map_concat_map. apply packRows_length.
Qed.

(** Variables that come with the required ones first are printed in
    the order they come in; so are variables that all have a default,
    and variables none of which has. *)
Theorem variableRows_keeps_order (required optional : list VariableSpec) :
  Forall (fun v => cty.IsNull (Default v) = true) required →
  Forall (fun v => cty.IsNull (Default v) = false) optional →
  variableRows (required ++ optional)
  = (variableRow "required" <$> required)
    ++ (variableRow "optional" <$> optional).
Proof.
  intros Hrequired Hoptional. rewrite variableRows_split, !filter_app.
  assert (filter (fun v => cty.IsNull (Default v) = true) required = required)
    as ->.
  { induction Hrequired as [| v l Hv _ IH]; [done |].
    by rewrite filter_cons_True, IH. }
  assert (filter (fun v => cty.IsNull (Default v) = true) optional = [])
    as ->.
  { induction Hoptional as [| v l Hv _ IH]; [done |].
    rewrite filter_cons_False; [done | congruence]. }
  assert (filter (fun v => cty.IsNull (Default v) ≠ true) required = [])
    as ->.
  { induction Hrequired as [| v l Hv _ IH]; [done |].
    rewrite filter_cons_False; [done | auto]. }
  assert (filter (fun v => cty.IsNull (Default v) ≠ true) optional = optional)
    as ->.
  { induction Hoptional as [| v l Hv _ IH]; [done |].
    rewrite filter_cons_True, IH; [done | congruence]. }
  by rewrite app_nil_r.
Qed.

End InfoRun.

(* ================================================================= *)
(** * The further properties at work *)

Section MoreWitnesses.

Import Samples.

(** [status example]: the answer about all packs is not looked at. *)
Lemma status_one_query_witness :
  let c := StatusCommand.mkBaseCommand ["example"] EmptyString in
  let flags := StatusCommand.mkPackConfig EmptyString EmptyString EmptyString in
  let job := StatusCommand.mkJobStatusInfo "example" "default" "dev" "web"
               "running" in
  StatusCommand.Run plainQuote id "usage" "args" (fun name => [name]) flags
    (StatusCommand.mkInvocation (inl c) None ([job], [], None)
       ([], Some "unreachable"))
  = StatusCommand.Run plainQuote id "usage" "args" (fun name => [name]) flags
      (StatusCommand.mkInvocation (inl c) None ([job], [], None)
         ([("example", ["default"])], None)).
Proof.
  intros c flags job.
  apply (status_one_query plainQuote id "usage" "args" (fun name => [name])
           flags _ _ c); reflexivity.
Defined.

(** [info] on the child pack with missing variables ignored: the
    three rows of the description, then one section of a title and two
    variables. *)
Lemma report_frame_sections_witness :
  ∃ sections : list (list (list Cell)),
    InfoCommand.report plainQuote shortName (fun _ => "diags")
      (list (string * list VariableSpec)) id childPack
      (parseRoot (InfoCommand.mkParserConfig childPack () true))
    = (0%Z,
       [RenderFrame
          ([ [BoldText "Pack Name          "; Text "redis"];
             [BoldText "Description        "; Text "a cache"];
             [BoldText "Application URL    "; Text "https://redis.io"] ]
           ++ concat sections)])
    ∧ length sections = 1
    ∧ length (concat sections) = 3.
Proof.
  destruct (report_frame_sections plainQuote shortName (fun _ => "diags")
              (list (string * list VariableSpec)) id childPack
              (parseRoot (InfoCommand.mkParserConfig childPack () true)))
    as (sections & Hframe & Hsections & Hlength); [reflexivity |].
  exists sections. split; [exact Hframe |]. split; [| exact Hlength].
  apply Forall2_length in Hsections. symmetry. exact Hsections.
Defined.

(** The required [region] before the optional [count] and [greeting]. *)
Lemma variableRows_keeps_order_witness :
  InfoCommand.variableRows plainQuote shortName [region; count; greeting]
  = [InfoCommand.variableRow plainQuote shortName "required" region;
     InfoCommand.variableRow plainQuote shortName "optional" count;
     InfoCommand.variableRow plainQuote shortName "optional" greeting].
Proof.
  apply (variableRows_keeps_order plainQuote shortName [region]
           [count; greeting]); repeat constructor.
Defined.

(** Two steps added and done, then [Wait]: it is released. *)
Lemma stepGroup_released_witness :
  let cs := [Terminal.CallAdd "fetch"; Terminal.CallAdd "render";
             Terminal.CallDone 1; Terminal.CallWait; Terminal.CallDone 0;
             Terminal.CallAbort 0] in
  ∃ g, Terminal.calls Terminal.newStepGroup cs = inl g
       ∧ Terminal.released g.
Proof.
  intros cs. eexists. split; [reflexivity |].
  apply (stepGroup_released cs); [reflexivity |]. repeat constructor.
Defined.

(** [Done] on a step, then again. *)
Lemma Done_twice_witness :
  let g := Terminal.Add Terminal.newStepGroup "fetch" in
  ∃ g', Terminal.Done g 0 = inl g' ∧ Terminal.Done g' 0 = inl g'
        ∧ Terminal.Abort g' 0 = inl g'.
Proof.
  intros g. eexists. split; [reflexivity |].
  apply (Done_twice g _ 0). reflexivity.
Defined.

(** A step added after [Wait], and one added before. *)
Lemma Done_of_added_step_witness :
  Terminal.Done
    (Terminal.Add (Terminal.Wait Terminal.newStepGroup) "late") 0
  = inr Terminal.NilWaitGroup
  ∧ ∃ g', Terminal.Done (Terminal.Add Terminal.newStepGroup "early") 0 = inl g'
          ∧ Terminal.counter g' = 0%Z.
Proof.
  split.
  - apply (Done_of_added_step (Terminal.Wait Terminal.newStepGroup) "late").
    reflexivity.
  - destruct (Done_of_added_step Terminal.newStepGroup "early") as [_ Hearly].
    destruct Hearly as (g' & Hdone & Hcounter & _); [reflexivity | done |].
    exists g'. split; [exact Hdone | exact Hcounter].
Defined.

End MoreWitnesses.
